(** * Fixed size arrays ([src/util/array.h])

    A shallow embedding of the class template [array<T, CallDestructors>] and
    of its two derived templates [ptr_array<T>] and [sarray<T>].

    The C++ object is one pointer, [m_data], that points at the first element
    of a block whose element count is stored in the [size_t] just before it.
    The embedding keeps that layout: a heap of typed cells at byte addresses,
    the header cell at [mem], the elements at [mem + sizeof(size_t) + i *
    sizeof(T)].  Calls into code that the class does not own (the allocator,
    the constructors and the destructor of [T]) are recorded, in order, in a
    trace. *)

From Stdlib Require Import ZArith List Lia Bool.
From stdpp Require Import base option list gmap.

Local Open Scope Z_scope.

(** ** The allocator interface

    [array] is a template over any type with an [allocate] from a byte count to an address and
    a [deallocate] of an element count and an address.  [a_allocate] answers [None] when the
    allocator fails (it throws or aborts; the class has no handler). *)
Class Allocator (A : Type) := {
  a_allocate : A -> Z -> option (Z * A);
  a_deallocate : A -> Z -> Z -> A
}.

(** ** Memory cells, events, errors *)

(** What an address holds: a [size_t] (the header) or a live [T]. *)
Inductive cell (T : Type) : Type :=
| CSize (n : Z)
| CElem (v : T).
Arguments CSize {T} n.
Arguments CElem {T} v.

(** Calls that leave the class, in program order. *)
Inductive event (T : Type) : Type :=
| EvAllocate (bytes p : Z)      (* a.allocate(bytes) returned p *)
| EvDeallocate (n p : Z)        (* a.deallocate(n, p) *)
| EvConstruct (p : Z) (v : T)   (* new (p) T(...), the new object is v *)
| EvDestroy (p : Z).            (* ((T* )p)->~T() *)
Arguments EvAllocate {T} bytes p.
Arguments EvDeallocate {T} n p.
Arguments EvConstruct {T} p v.
Arguments EvDestroy {T} p.

Inductive error : Type :=
| AssertionViolation   (* a SASSERT failed (debug builds only) *)
| AllocationFailure    (* a.allocate did not return *)
| InvalidAccess        (* a read of an address that holds no such object *)
| OutOfFuel.           (* a loop did not finish within its budget *)

(** The object ([m_data]) and the world around it. *)
Record machine (T A : Type) : Type := Machine {
  m_data : Z;
  heap : gmap Z (cell T);
  allocator : A;
  trace : list (event T)
}.
Arguments Machine {T A} m_data heap allocator trace.
Arguments m_data {T A} m.
Arguments heap {T A} m.
Arguments allocator {T A} m.
Arguments trace {T A} m.

Inductive outcome (T A X : Type) : Type :=
| Done (x : X) (m : machine T A)
| Raise (e : error) (m : machine T A).
Arguments Done {T A X} x m.
Arguments Raise {T A X} e m.

(** ** The class [array<T, CallDestructors>] *)
Module array.
Section array.

Context {T A : Type} `{Allocator A}.

(** [sizeof(T)] and [sizeof(size_t)], in bytes; [T()]. *)
Variable sizeof_T : Z.
Variable sizeof_size_t : Z.
Variable T_default : T.

(** [true] in a build where [DEBUG_CODE] and [SASSERT] are compiled in. *)
Variable debug : bool.

(** The second template argument. *)
Variable CallDestructors : bool.

(** Computations that read and write the machine and may fail. *)
Definition M (X : Type) : Type := machine T A -> outcome T A X.

#[global] Instance M_ret : MRet M := fun X x m => Done x m.

#[global] Instance M_bind : MBind M := fun X Y f c m =>
  match c m with
  | Done x m' => f x m'
  | Raise e m' => Raise e m'
  end.

Definition raise {X : Type} (e : error) : M X := fun m => Raise e m.

Definition get_m_data : M Z := fun m => Done (m_data m) m.

Definition put_m_data (p : Z) : M unit := fun m =>
  Done tt (Machine p (heap m) (allocator m) (trace m)).

Definition emit (ev : event T) : M unit := fun m =>
  Done tt (Machine (m_data m) (heap m) (allocator m) (trace m ++ [ev])).

(** [*p] for a [size_t* p] and for a [T* p]. *)
Definition load_size (p : Z) : M Z := fun m =>
  match heap m !! p with
  | Some (CSize n) => Done n m
  | _ => Raise InvalidAccess m
  end.

Definition load_T (p : Z) : M T := fun m =>
  match heap m !! p with
  | Some (CElem v) => Done v m
  | _ => Raise InvalidAccess m
  end.

(** [*p = n] for a [size_t* p]; [*p = v] for a [T* p]. *)
Definition store_size (p n : Z) : M unit := fun m =>
  Done tt (Machine (m_data m) (<[p := CSize n]> (heap m)) (allocator m) (trace m)).

Definition store_T (p : Z) (v : T) : M unit := fun m =>
  Done tt (Machine (m_data m) (<[p := CElem v]> (heap m)) (allocator m) (trace m)).

(** [new (p) T(v)]. *)
Definition construct (p : Z) (v : T) : M unit :=
  store_T p v;; emit (EvConstruct p v).

(** [SASSERT(c)]: a debug build evaluates [c] and stops when it is false; in
    a release build the macro expands to nothing and [c] is not evaluated. *)
Definition SASSERT (c : M bool) : M unit :=
  if debug
  then c ≫= fun b : bool => if b then mret tt else raise AssertionViolation
  else mret tt.

(** [DEBUG_CODE(c)]: [c] in a debug build, nothing otherwise. *)
Definition DEBUG_CODE (c : M unit) : M unit :=
  if debug then c else mret tt.

(** Arithmetic on [size_t]. *)
Definition size_t_modulus : Z := 2 ^ (8 * sizeof_size_t).

Definition wrap (z : Z) : Z := z mod size_t_modulus.

(** [static size_t space(size_t sz) { return sizeof(T)*sz + sizeof(size_t); }] *)
Definition space (sz : Z) : Z := wrap (wrap (sizeof_T * sz) + sizeof_size_t).

(** [#define ARRAY_SIZE_IDX -1] *)
Definition ARRAY_SIZE_IDX : Z := -1.

(** Modelled from the spec: the macro [SIZE_IDX], which [size()] uses, is not
    defined in [array.h] (the header defines [ARRAY_SIZE_IDX] and never uses
    it).  The spec stores the count at the address immediately preceding the
    first element, one [size_t] before [m_data]. *)
Definition SIZE_IDX : Z := -1.

(** [size_t size() const] *)
Definition size : M Z :=
  p ← get_m_data;
  if p =? 0 then mret 0
  else load_size (p + SIZE_IDX * sizeof_size_t).

(** [bool empty() const] *)
Definition empty : M bool :=
  p ← get_m_data; mret (p =? 0).

(** [iterator begin()] and [iterator end()]; an iterator is a [T*].
    Addresses are integers: [p + n * sizeof(T)] is the pointer the machine
    forms for as long as it lies inside the address space, which the
    properties of the loops over [begin() .. end()] assume of the block they
    are about. *)
Definition begin : M Z := get_m_data.

Definition end_ : M Z :=
  p ← get_m_data; n ← size; mret (p + n * sizeof_T).

(** [T * c_ptr()] *)
Definition c_ptr : M Z := get_m_data.

(** [char * raw_ptr() const] *)
Definition raw_ptr : M Z :=
  p ← get_m_data; mret (p - 1 * sizeof_size_t).

(** The loop of [destroy_elements]: [for (; it != e; ++it) it->~T();] *)
Fixpoint destroy_loop (fuel : nat) (it e : Z) : M unit :=
  if it =? e then mret tt
  else match fuel with
       | O => raise OutOfFuel
       | S fuel' => emit (EvDestroy it);; destroy_loop fuel' (it + sizeof_T) e
       end.

(** [void destroy_elements()].  Every round of the loop moves [it] forward by
    [sizeof(T)], at least one byte, so a loop that reaches [e] at all does so
    within [e - it] rounds: that is the budget of this loop and of the ones
    below. *)
Definition destroy_elements : M unit :=
  it ← begin; e ← end_; destroy_loop (Z.to_nat (e - it)) it e.

(** [void set_data(void * mem, size_t sz)] *)
Definition set_data (mem sz : Z) : M unit :=
  store_size mem sz;; put_m_data (mem + 1 * sizeof_size_t).

(** [template<typename Allocator> void allocate(Allocator & a, size_t sz)] *)
Definition allocate (sz : Z) : M unit := fun m =>
  match a_allocate (allocator m) (space sz) with
  | None => Raise AllocationFailure m
  | Some (mem, a') =>
      set_data mem sz
        (Machine (m_data m) (heap m) a' (trace m ++ [EvAllocate (space sz) mem]))
  end.

(** The loop of [init()]: [for (; it != e; ++it) new (it) T();] *)
Fixpoint init_loop (fuel : nat) (it e : Z) : M unit :=
  if it =? e then mret tt
  else match fuel with
       | O => raise OutOfFuel
       | S fuel' => construct it T_default;; init_loop fuel' (it + sizeof_T) e
       end.

(** [void init()] *)
Definition init : M unit :=
  it ← begin; e ← end_; init_loop (Z.to_nat (e - it)) it e.

(** The loop of [init(vs)]: [for (; it != e; ++it, ++vs) new (it) T( *vs);] *)
Fixpoint init_copy_loop (fuel : nat) (it e vs : Z) : M unit :=
  if it =? e then mret tt
  else match fuel with
       | O => raise OutOfFuel
       | S fuel' =>
           v ← load_T vs;
           construct it v;;
           init_copy_loop fuel' (it + sizeof_T) e (vs + sizeof_T)
       end.

(** [void init(T const * vs)] *)
Definition init_copy (vs : Z) : M unit :=
  it ← begin; e ← end_; init_copy_loop (Z.to_nat (e - it)) it e vs.

(** [void set(void * mem, size_t sz, T const * vs)] *)
Definition set_mem (mem sz vs : Z) : M unit :=
  SASSERT (p ← get_m_data; mret (p =? 0));;
  set_data mem sz;;
  init_copy vs.

(** [template<typename Allocator> void set(Allocator & a, size_t sz, T const * vs)] *)
Definition set_alloc (sz vs : Z) : M unit :=
  SASSERT (p ← get_m_data; mret (p =? 0));;
  allocate sz;;
  init_copy vs.

(** [array():m_data(0) {}] *)
Definition array_default : M unit := put_m_data 0.

(** [array(void * mem, size_t sz, T const * vs)].  A constructor starts from
    whatever [m_data] the fresh object happens to hold. *)
Definition array_mem_vs (mem sz vs : Z) : M unit :=
  DEBUG_CODE (put_m_data 0);;
  set_mem mem sz vs.

(** [array(void * mem, size_t sz, bool init_mem)] *)
Definition array_mem_init (mem sz : Z) (init_mem : bool) : M unit :=
  DEBUG_CODE (put_m_data 0);;
  set_data mem sz;;
  if init_mem then init else mret tt.

(** [template<typename Allocator> array(Allocator & a, size_t sz, T const * vs)] *)
Definition array_alloc_vs (sz vs : Z) : M unit :=
  DEBUG_CODE (put_m_data 0);;
  set_alloc sz vs.

(** [template<typename Allocator> array(Allocator & a, size_t sz, bool init_mem)] *)
Definition array_alloc_init (sz : Z) (init_mem : bool) : M unit :=
  DEBUG_CODE (put_m_data 0);;
  allocate sz;;
  if init_mem then init else mret tt.

(** [~array()] *)
Definition array_dtor : M unit :=
  p ← get_m_data;
  if negb (p =? 0) && CallDestructors then destroy_elements else mret tt.

(** [a.deallocate(n, p)] on the machine's allocator. *)
Definition deallocate (n p : Z) : M unit := fun m =>
  Done tt (Machine (m_data m) (heap m) (a_deallocate (allocator m) n p)
             (trace m ++ [EvDeallocate n p])).

(** [template<typename Allocator> void finalize(Allocator & a)] *)
Definition finalize : M unit :=
  p ← get_m_data;
  if negb (p =? 0) then
    (if CallDestructors then destroy_elements else mret tt);;
    n ← size;
    r ← raw_ptr;
    deallocate n r;;
    put_m_data 0
  else mret tt.

(** [T & operator[](size_t idx)]: the reference is the element's address, an
    integer as for [end()]. *)
Definition operator_index (idx : Z) : M Z :=
  SASSERT (n ← size; mret (idx <? n));;
  p ← get_m_data;
  mret (p + idx * sizeof_T).

(** A traversal [for (it = begin(); it != end(); ++it) out.push_back( *it);]
    as a client of the class writes it. *)
Fixpoint iterate_loop (fuel : nat) (it e : Z) : M (list T) :=
  if it =? e then mret []
  else match fuel with
       | O => raise OutOfFuel
       | S fuel' =>
           v ← load_T it;
           vs ← iterate_loop fuel' (it + sizeof_T) e;
           mret (v :: vs)
       end.

Definition iterate : M (list T) :=
  it ← begin; e ← end_; iterate_loop (Z.to_nat (e - it)) it e.

End array.
End array.

(** ** The class [ptr_array<T>]: [array<T*, false>] with its constructors

    A [T*] is an address.  The class declares five constructors, each of which
    forwards to the base's; every other member is inherited, and the implicit
    destructor runs the base's. *)
Module ptr_array.
Section ptr_array.

Context {A : Type} `{Allocator A}.

(** [sizeof(T* )] and [sizeof(size_t)]. *)
Variable sizeof_ptr : Z.
Variable sizeof_size_t : Z.
Variable debug : bool.

(** [T*()], the null pointer. *)
Definition null : Z := 0.

(** [ptr_array() {}] *)
Definition ptr_array_default : array.M (T:=Z) (A:=A) unit :=
  array.array_default.

(** [ptr_array(void * mem, size_t sz, T * const * vs):array<T*, false>(mem, sz, vs) {}] *)
Definition ptr_array_mem_vs (mem sz vs : Z) : array.M (T:=Z) (A:=A) unit :=
  array.array_mem_vs sizeof_ptr sizeof_size_t debug mem sz vs.

(** [ptr_array(Allocator & a, size_t sz, T * const * vs):array<T*, false>(a, sz, vs) {}] *)
Definition ptr_array_alloc_vs (sz vs : Z) : array.M (T:=Z) (A:=A) unit :=
  array.array_alloc_vs sizeof_ptr sizeof_size_t debug sz vs.

(** [ptr_array(void * mem, size_t sz, bool init_mem):array<T*, false>(mem, sz, init_mem) {}] *)
Definition ptr_array_mem_init (mem sz : Z) (init_mem : bool) : array.M (T:=Z) (A:=A) unit :=
  array.array_mem_init sizeof_ptr sizeof_size_t null debug mem sz init_mem.

(** [ptr_array(Allocator & a, size_t sz, bool init_mem):array<T*, false>(a, sz, init_mem) {}] *)
Definition ptr_array_alloc_init (sz : Z) (init_mem : bool) : array.M (T:=Z) (A:=A) unit :=
  array.array_alloc_init sizeof_ptr sizeof_size_t null debug sz init_mem.

(** The implicit [~ptr_array()] runs [~array<T*, false>()]. *)
Definition ptr_array_dtor : array.M (T:=Z) (A:=A) unit :=
  array.array_dtor sizeof_ptr sizeof_size_t false.

(** The inherited [finalize]. *)
Definition finalize : array.M (T:=Z) (A:=A) unit :=
  array.finalize sizeof_ptr sizeof_size_t false.

End ptr_array.
End ptr_array.

(** ** The class [sarray<T>]: [array<T, false>] with its constructors *)
Module sarray.
Section sarray.

Context {T A : Type} `{Allocator A}.

Variable sizeof_T : Z.
Variable sizeof_size_t : Z.
Variable T_default : T.
Variable debug : bool.

(** [sarray() {}] *)
Definition sarray_default : array.M (T:=T) (A:=A) unit :=
  array.array_default.

(** [sarray(void * mem, size_t sz, T const * vs):array<T, false>(mem, sz, vs) {}] *)
Definition sarray_mem_vs (mem sz vs : Z) : array.M (T:=T) (A:=A) unit :=
  array.array_mem_vs sizeof_T sizeof_size_t debug mem sz vs.

(** [sarray(Allocator & a, size_t sz, T const * vs):array<T, false>(a, sz, vs) {}] *)
Definition sarray_alloc_vs (sz vs : Z) : array.M (T:=T) (A:=A) unit :=
  array.array_alloc_vs sizeof_T sizeof_size_t debug sz vs.

(** [sarray(void * mem, size_t sz, bool init_mem):array<T, false>(mem, sz, init_mem) {}] *)
Definition sarray_mem_init (mem sz : Z) (init_mem : bool) : array.M (T:=T) (A:=A) unit :=
  array.array_mem_init sizeof_T sizeof_size_t T_default debug mem sz init_mem.

(** [sarray(Allocator & a, size_t sz, bool init_mem):array<T, false>(a, sz, init_mem) {}] *)
Definition sarray_alloc_init (sz : Z) (init_mem : bool) : array.M (T:=T) (A:=A) unit :=
  array.array_alloc_init sizeof_T sizeof_size_t T_default debug sz init_mem.

(** The implicit [~sarray()] runs [~array<T, false>()]. *)
Definition sarray_dtor : array.M (T:=T) (A:=A) unit :=
  array.array_dtor sizeof_T sizeof_size_t false.

(** The inherited [finalize]. *)
Definition finalize : array.M (T:=T) (A:=A) unit :=
  array.finalize sizeof_T sizeof_size_t false.

End sarray.
End sarray.

(** ** The layout of a block, stated independently of the class *)
Section layout.

Context {T : Type}.
Variable sizeof_T : Z.

(** The addresses of [n] consecutive [T] objects from [p], in storage order. *)
Fixpoint elem_addrs (n : nat) (p : Z) : list Z :=
  match n with
  | O => []
  | S k => p :: elem_addrs k (p + sizeof_T)
  end.

(** The [n] consecutive [T] objects found from [p], if they are all there. *)
Fixpoint read_list (h : gmap Z (cell T)) (p : Z) (n : nat) : option (list T) :=
  match n with
  | O => Some []
  | S k =>
      match h !! p with
      | Some (CElem v) =>
          match read_list h (p + sizeof_T) k with
          | Some l => Some (v :: l)
          | None => None
          end
      | _ => None
      end
  end.

(** The heap once the values [l] are objects at consecutive addresses from [p]. *)
Fixpoint store_list (p : Z) (l : list T) (h : gmap Z (cell T)) : gmap Z (cell T) :=
  match l with
  | [] => h
  | v :: l' => store_list (p + sizeof_T) l' (<[p := CElem v]> h)
  end.

(** The constructor calls that build [l] from [p], first element first. *)
Fixpoint construct_events (p : Z) (l : list T) : list (event T) :=
  match l with
  | [] => []
  | v :: l' => EvConstruct p v :: construct_events (p + sizeof_T) l'
  end.

Definition is_construct (ev : event T) : bool :=
  match ev with
  | EvConstruct _ _ => true
  | _ => false
  end.

Definition is_destroy (ev : event T) : bool :=
  match ev with
  | EvDestroy _ => true
  | _ => false
  end.

Definition is_deallocate (ev : event T) : bool :=
  match ev with
  | EvDeallocate _ _ => true
  | _ => false
  end.

End layout.

(** The machine an outcome ends in, whether it returned or raised. *)
Definition final {T A X : Type} (o : outcome T A X) : machine T A :=
  match o with
  | Done _ m => m
  | Raise _ m => m
  end.

(** The handle of [m] points at a block whose header counts the values [l]
    and whose elements are exactly [l], in order. *)
Definition block_at {T A : Type} (sizeof_T sizeof_size_t : Z)
    (m : machine T A) (l : list T) : Prop :=
  m_data m <> 0 /\
  heap m !! (m_data m - sizeof_size_t) = Some (CSize (Z.of_nat (length l))) /\
  read_list sizeof_T (heap m) (m_data m) (length l) = Some l.

(** An outcome returned, and the handle it leaves has [length l] elements and
    a traversal of it reads exactly [l]. *)
Definition round_trips {T A : Type} (sizeof_T sizeof_size_t : Z)
    (l : list T) (o : outcome T A unit) : Prop :=
  exists m' : machine T A,
    o = Done tt m' /\
    array.size sizeof_size_t m' = Done (Z.of_nat (length l)) m' /\
    array.iterate sizeof_T sizeof_size_t m' = Done l m'.

(** A computation started in [m] ended in [o] without touching the handle or
    the allocator, and every call it added to the trace satisfies [P]. *)
Definition only_emits {T A X : Type} (P : event T -> bool)
    (m : machine T A) (o : outcome T A X) : Prop :=
  m_data (final o) = m_data m /\
  allocator (final o) = allocator m /\
  exists evs : list (event T),
    trace (final o) = trace m ++ evs /\ forallb P evs = true.

(** The outcome is a failed [SASSERT]. *)
Definition is_trapped {T A X : Type} (o : outcome T A X) : bool :=
  match o with
  | Raise AssertionViolation _ => true
  | _ => false
  end.

(** What a constructor starts from: [DEBUG_CODE(m_data = 0;)] nulls the
    pointer in a debug build, and the pointer is indeterminate otherwise. *)
Definition fresh_object {T A : Type} (debug : bool) (m : machine T A) : machine T A :=
  if debug then Machine 0 (heap m) (allocator m) (trace m) else m.

(** ** The life of one handle

    A constructor call followed by member calls, as a client makes them, and
    the record a client would keep of them: whether the last create has been
    followed by a [finalize]. *)
Section lifecycle.

Context {T A : Type} `{Allocator A}.

Variable sizeof_T : Z.
Variable sizeof_size_t : Z.
Variable T_default : T.
Variable debug : bool.
Variable CallDestructors : bool.

Inductive ctor_call : Type :=
| NewDefault
| NewMemVs (mem sz vs : Z)
| NewMemInit (mem sz : Z) (init_mem : bool)
| NewAllocVs (sz vs : Z)
| NewAllocInit (sz : Z) (init_mem : bool).

Inductive member_call : Type :=
| CallSetMem (mem sz vs : Z)
| CallSetAlloc (sz vs : Z)
| CallFinalize
| CallSize
| CallEmpty
| CallIterate
| CallAssign (idx : Z) (v : T).   (* a[idx] = v *)

Definition run_ctor (c : ctor_call) : array.M (T:=T) (A:=A) unit :=
  match c with
  | NewDefault => array.array_default
  | NewMemVs mem sz vs => array.array_mem_vs sizeof_T sizeof_size_t debug mem sz vs
  | NewMemInit mem sz init_mem =>
      array.array_mem_init sizeof_T sizeof_size_t T_default debug mem sz init_mem
  | NewAllocVs sz vs => array.array_alloc_vs sizeof_T sizeof_size_t debug sz vs
  | NewAllocInit sz init_mem =>
      array.array_alloc_init sizeof_T sizeof_size_t T_default debug sz init_mem
  end.

Definition run_member (c : member_call) : array.M (T:=T) (A:=A) unit :=
  match c with
  | CallSetMem mem sz vs => array.set_mem sizeof_T sizeof_size_t debug mem sz vs
  | CallSetAlloc sz vs => array.set_alloc sizeof_T sizeof_size_t debug sz vs
  | CallFinalize => array.finalize sizeof_T sizeof_size_t CallDestructors
  | CallSize => array.size sizeof_size_t;; mret tt
  | CallEmpty => array.empty;; mret tt
  | CallIterate => array.iterate sizeof_T sizeof_size_t;; mret tt
  | CallAssign idx v =>
      r ← array.operator_index sizeof_T sizeof_size_t debug idx;
      array.store_T r v
  end.

Fixpoint run_members (cs : list member_call) : array.M (T:=T) (A:=A) unit :=
  match cs with
  | [] => mret tt
  | c :: cs' => run_member c;; run_members cs'
  end.

Definition ctor_creates (c : ctor_call) : bool :=
  match c with
  | NewDefault => false
  | _ => true
  end.

Definition member_creates (b : bool) (c : member_call) : bool :=
  match c with
  | CallSetMem _ _ _ | CallSetAlloc _ _ => true
  | CallFinalize => false
  | _ => b
  end.

(** Created, and not released since. *)
Definition created (c : ctor_call) (cs : list member_call) : bool :=
  fold_left member_creates cs (ctor_creates c).

(** The regions a client passes are real ones: their address is not null. *)
Definition ctor_region_ok (c : ctor_call) : bool :=
  match c with
  | NewMemVs mem _ _ | NewMemInit mem _ _ => 0 <? mem
  | _ => true
  end.

Definition member_region_ok (c : member_call) : bool :=
  match c with
  | CallSetMem mem _ _ => 0 <? mem
  | _ => true
  end.

End lifecycle.

Arguments member_call : clear implicits.

(** An allocator never hands out the null address. *)
Definition allocates_non_null (A : Type) `{Allocator A} : Prop :=
  forall (a a' : A) (n p : Z), a_allocate a n = Some (p, a') -> 0 < p.

(** Teardown as the spec words it for a block whose elements need none:
    nothing for an empty handle; otherwise hand the region back to the
    allocator, with the count read from the header, and reset the handle.
    No element is visited. *)
Definition release_region {T A : Type} `{Allocator A} (sizeof_size_t : Z)
    (m : machine T A) : outcome T A unit :=
  if m_data m =? 0 then Done tt m
  else match heap m !! (m_data m - sizeof_size_t) with
       | Some (CSize n) =>
           Done tt
             (Machine 0 (heap m)
                (a_deallocate (allocator m) n (m_data m - sizeof_size_t))
                (trace m ++ [EvDeallocate n (m_data m - sizeof_size_t)]))
       | _ => Raise InvalidAccess m
       end.

(** Pointers have the width of [size_t].  The [n] elements of [sizeof_T] bytes
    from the address [p] lie inside the address space: [p + n * sizeof(T)],
    the pointer one past the last of them, is formed without wrapping. *)
Definition in_address_space (sizeof_T sizeof_size_t p n : Z) : Prop :=
  0 <= p /\ 0 <= n /\ p + n * sizeof_T < array.size_t_modulus sizeof_size_t.

(** ** An allocator to run the class against

    A bump allocator over the addresses [next_free .. limit), none of them
    null: [allocate] fails when the request does not fit, [deallocate] only
    records the call. *)
Record bump : Type := Bump {
  next_free : Z;
  limit : Z;
  released : list (Z * Z)
}.

#[global] Instance bump_allocator : Allocator bump := {|
  a_allocate b n :=
    if (0 <? next_free b) && (next_free b + n <=? limit b)
    then Some (next_free b, Bump (next_free b + n) (limit b) (released b))
    else None;
  a_deallocate b n p := Bump (next_free b) (limit b) ((n, p) :: released b)
|}.

(** A heap with the three ints [7; 8; 9] at the addresses 100, 104 and 108,
    an empty handle, and an allocator of the 64 bytes from address 1000. *)
Definition example_heap : gmap Z (cell Z) :=
  <[100 := CElem 7]> (<[104 := CElem 8]> (<[108 := CElem 9]> ∅)).

Definition example_machine : machine Z bump :=
  Machine 0 example_heap (Bump 1000 1064 []) [].

(** The block that creating from that source through that allocator builds:
    the header at 1000, the elements at 1008, 1012 and 1016. *)
Definition example_block : machine Z bump :=
  Machine 1008
    (<[1016 := CElem 9]> (<[1012 := CElem 8]> (<[1008 := CElem 7]>
       (<[1000 := CSize 3]> example_heap))))
    (Bump 1020 1064 [])
    [EvAllocate 20 1000; EvConstruct 1008 7; EvConstruct 1012 8;
     EvConstruct 1016 9].

(** The same, with an allocator that has no room left. *)
Definition example_machine_full : machine Z bump :=
  Machine 0 example_heap (Bump 1000 1000 []) [].

(** ** Properties *)
Section properties.

Context {T A : Type} `{Allocator A}.

Variable sizeof_T : Z.
Variable sizeof_size_t : Z.
Variable T_default : T.

(** Objects and the header occupy at least one byte. *)
Hypothesis sizeof_T_pos : 0 < sizeof_T.
Hypothesis sizeof_size_t_pos : 0 < sizeof_size_t.

Local Abbreviation machine := (machine T A).
Local Abbreviation M := (array.M (T:=T) (A:=A)).
Local Abbreviation size := (array.size (T:=T) (A:=A) sizeof_size_t).
Local Abbreviation empty := (array.empty (T:=T) (A:=A)).
Local Abbreviation begin := (array.begin (T:=T) (A:=A)).
Local Abbreviation end_ := (array.end_ (T:=T) (A:=A) sizeof_T sizeof_size_t).
Local Abbreviation raw_ptr := (array.raw_ptr (T:=T) (A:=A) sizeof_size_t).
Local Abbreviation load_T := (array.load_T (T:=T) (A:=A)).
Local Abbreviation store_T := (array.store_T (T:=T) (A:=A)).
Local Abbreviation destroy_loop := (array.destroy_loop (T:=T) (A:=A) sizeof_T).
Local Abbreviation destroy_elements := (array.destroy_elements (T:=T) (A:=A) sizeof_T sizeof_size_t).
Local Abbreviation set_data := (array.set_data (T:=T) (A:=A) sizeof_size_t).
Local Abbreviation allocate := (array.allocate (T:=T) (A:=A) sizeof_T sizeof_size_t).
Local Abbreviation init_loop := (array.init_loop (T:=T) (A:=A) sizeof_T T_default).
Local Abbreviation init := (array.init (T:=T) (A:=A) sizeof_T sizeof_size_t T_default).
Local Abbreviation init_copy_loop := (array.init_copy_loop (T:=T) (A:=A) sizeof_T).
Local Abbreviation init_copy := (array.init_copy (T:=T) (A:=A) sizeof_T sizeof_size_t).
Local Abbreviation set_mem := (array.set_mem (T:=T) (A:=A) sizeof_T sizeof_size_t).
Local Abbreviation set_alloc := (array.set_alloc (T:=T) (A:=A) sizeof_T sizeof_size_t).
Local Abbreviation array_default := (array.array_default (T:=T) (A:=A)).
Local Abbreviation array_mem_vs := (array.array_mem_vs (T:=T) (A:=A) sizeof_T sizeof_size_t).
Local Abbreviation array_mem_init := (array.array_mem_init (T:=T) (A:=A) sizeof_T sizeof_size_t T_default).
Local Abbreviation array_alloc_vs := (array.array_alloc_vs (T:=T) (A:=A) sizeof_T sizeof_size_t).
Local Abbreviation array_alloc_init := (array.array_alloc_init (T:=T) (A:=A) sizeof_T sizeof_size_t T_default).
Local Abbreviation array_dtor := (array.array_dtor (T:=T) (A:=A) sizeof_T sizeof_size_t).
Local Abbreviation finalize := (array.finalize (T:=T) (A:=A) sizeof_T sizeof_size_t).
Local Abbreviation operator_index := (array.operator_index (T:=T) (A:=A) sizeof_T sizeof_size_t).
Local Abbreviation iterate_loop := (array.iterate_loop (T:=T) (A:=A) sizeof_T).
Local Abbreviation iterate := (array.iterate (T:=T) (A:=A) sizeof_T sizeof_size_t).
Local Abbreviation space := (array.space sizeof_T sizeof_size_t).
Local Abbreviation elem_addrs := (elem_addrs sizeof_T).
Local Abbreviation read_list := (read_list (T:=T) sizeof_T).
Local Abbreviation store_list := (store_list (T:=T) sizeof_T).
Local Abbreviation construct_events := (construct_events (T:=T) sizeof_T).
Local Abbreviation block_at := (block_at (T:=T) (A:=A) sizeof_T sizeof_size_t).
Local Abbreviation in_address_space := (in_address_space sizeof_T sizeof_size_t).
Local Abbreviation fresh := (fresh_object (T:=T) (A:=A)).
Local Abbreviation run_ctor' := (run_ctor (T:=T) (A:=A) sizeof_T sizeof_size_t T_default).
Local Abbreviation run_member' := (run_member (T:=T) (A:=A) sizeof_T sizeof_size_t).
Local Abbreviation run_members' := (run_members (T:=T) (A:=A) sizeof_T sizeof_size_t).
Local Abbreviation round_trips := (round_trips (T:=T) (A:=A) sizeof_T sizeof_size_t).

(** Unfolds the monad's plumbing. *)
Local Ltac mstep :=
  repeat progress
    (unfold mbind, mret, array.M_bind, array.M_ret, array.raise,
       array.get_m_data, array.put_m_data, array.emit, array.construct,
       array.store_T, array.store_size;
     cbv beta iota;
     cbn [m_data heap allocator trace]).

(** Decides the pointer comparison at the head of a loop or a branch. *)
Local Ltac case_eqb :=
  match goal with
  | |- context [?a =? ?b] => destruct (Z.eqb_spec a b)
  end.

Lemma machine_eta (m : machine) :
  Machine (m_data m) (heap m) (allocator m) (trace m) = m.
Proof. by destruct m. Qed.

(** *** The header *)

Lemma size_empty (m : machine) : m_data m = 0 -> size m = Done 0 m.
Proof. intros E. unfold array.size. mstep. by rewrite E. Qed.

Lemma size_backed (m : machine) (n : Z) :
  m_data m <> 0 ->
  heap m !! (m_data m - sizeof_size_t) = Some (CSize n) ->
  size m = Done n m.
Proof.
  intros Hp Hh. unfold array.size, array.load_size, array.SIZE_IDX. mstep.
  destruct (Z.eqb_spec (m_data m) 0) as [|_]; [done|].
  replace (m_data m + -1 * sizeof_size_t) with (m_data m - sizeof_size_t) by lia.
  by rewrite Hh.
Qed.

(** *** The destruction loop *)

Lemma destroy_loop_spec (n : nat) :
  forall (fuel : nat) (it e : Z) (m : machine),
    (n <= fuel)%nat ->
    e = it + Z.of_nat n * sizeof_T ->
    destroy_loop fuel it e m =
      Done tt (Machine (m_data m) (heap m) (allocator m)
                 (trace m ++ (EvDestroy <$> elem_addrs n it))).
Proof.
  induction n as [|n IH]; intros fuel it e m Hf ->.
  - destruct fuel; simpl; (case_eqb; [|lia]); mstep;
      by rewrite app_nil_r, machine_eta.
  - destruct fuel as [|fuel]; [lia|]. simpl. case_eqb; [nia|]. mstep.
    rewrite IH by lia. simpl. by rewrite <- app_assoc.
Qed.

Lemma elem_addrs_length (n : nat) (p : Z) : length (elem_addrs n p) = n.
Proof. revert p. induction n; intros; simpl; auto. Qed.

Lemma elem_addrs_lookup (n : nat) :
  forall (p : Z) (i : nat),
    (i < n)%nat -> elem_addrs n p !! i = Some (p + Z.of_nat i * sizeof_T).
Proof.
  induction n as [|n IH]; intros p [|i] Hi; simpl; try lia.
  - f_equal. lia.
  - rewrite IH by lia. f_equal. lia.
Qed.

Lemma elem_addrs_lower (n : nat) :
  forall (p q : Z), q ∈ elem_addrs n p -> p <= q.
Proof.
  induction n as [|n IH]; intros p q; simpl.
  - by intros ?%elem_of_nil.
  - intros [->|Hq%IH]%elem_of_cons; lia.
Qed.

Lemma elem_addrs_NoDup (n : nat) (p : Z) : NoDup (elem_addrs n p).
Proof.
  revert p. induction n as [|n IH]; intros p; simpl; constructor; auto.
  intros Hq%elem_addrs_lower. lia.
Qed.


(** *** Reading and writing consecutive objects *)

Lemma read_list_length (h : gmap Z (cell T)) (n : nat) :
  forall (p : Z) (l : list T), read_list h p n = Some l -> length l = n.
Proof.
  induction n as [|n IH]; intros p l; simpl.
  - by intros [= <-].
  - destruct (h !! p) as [[|v]|]; try done.
    destruct (read_list h (p + sizeof_T) n) as [l'|] eqn:E; try done.
    intros [= <-]. simpl. f_equal. eauto.
Qed.

Lemma read_list_cons (h : gmap Z (cell T)) (p : Z) (v : T) (l : list T) :
  read_list h p (S (length l)) = Some (v :: l) <->
  h !! p = Some (CElem v) /\ read_list h (p + sizeof_T) (length l) = Some l.
Proof.
  simpl. split.
  - destruct (h !! p) as [[|v']|]; try done.
    destruct (read_list h (p + sizeof_T) (length l)) as [l'|]; try done.
    by intros [= -> ->].
  - by intros [-> ->].
Qed.

Lemma read_list_insert (h : gmap Z (cell T)) (q : Z) (c : cell T) (n : nat) :
  forall (p : Z),
    q < p \/ p + Z.of_nat n * sizeof_T <= q ->
    read_list (<[q := c]> h) p n = read_list h p n.
Proof.
  induction n as [|n IH]; intros p Hq; simpl; [done|].
  rewrite lookup_insert_ne by nia. by rewrite IH by nia.
Qed.

Lemma store_list_lookup (l : list T) :
  forall (p q : Z) (h : gmap Z (cell T)),
    q < p \/ p + Z.of_nat (length l) * sizeof_T <= q ->
    store_list p l h !! q = h !! q.
Proof.
  induction l as [|v l IH]; intros p q h Hq; simpl; [done|].
  simpl in Hq. rewrite IH by nia. apply lookup_insert_ne. nia.
Qed.

Lemma read_list_store_list_other (l : list T) (n : nat) :
  forall (p q : Z) (h : gmap Z (cell T)),
    q + Z.of_nat n * sizeof_T <= p \/ p + Z.of_nat (length l) * sizeof_T <= q ->
    read_list (store_list p l h) q n = read_list h q n.
Proof.
  induction l as [|v l IH]; intros p q h Hq; simpl; [done|].
  simpl in Hq. rewrite IH by nia. apply read_list_insert. nia.
Qed.

Lemma read_list_store_list (l : list T) :
  forall (p : Z) (h : gmap Z (cell T)),
    read_list (store_list p l h) p (length l) = Some l.
Proof.
  induction l as [|v l IH]; intros p h; [done|].
  apply read_list_cons. split.
  - simpl. rewrite store_list_lookup by lia. apply lookup_insert_eq.
  - simpl. apply IH.
Qed.

(** *** The construction loops *)

Lemma init_copy_loop_spec (l : list T) :
  forall (fuel : nat) (it e vs : Z) (m : machine),
    (length l <= fuel)%nat ->
    e = it + Z.of_nat (length l) * sizeof_T ->
    read_list (heap m) vs (length l) = Some l ->
    vs + Z.of_nat (length l) * sizeof_T <= it \/
      it + Z.of_nat (length l) * sizeof_T <= vs ->
    init_copy_loop fuel it e vs m =
      Done tt (Machine (m_data m) (store_list it l (heap m)) (allocator m)
                 (trace m ++ construct_events it l)).
Proof.
  induction l as [|v l IH]; intros fuel it e vs m Hf -> Hr Hd.
  - destruct fuel; simpl; (case_eqb; [|lia]); mstep;
      by rewrite app_nil_r, machine_eta.
  - apply read_list_cons in Hr as [Hv Hr].
    destruct fuel as [|fuel]; [simpl in Hf; lia|].
    cbn [length array.init_copy_loop] in *. case_eqb; [nia|].
    unfold array.load_T. mstep. rewrite Hv.
    rewrite (IH fuel _ _ (vs + sizeof_T)); cbn [m_data heap allocator trace].
    + simpl. by rewrite <- app_assoc.
    + lia.
    + nia.
    + rewrite read_list_insert by nia. done.
    + nia.
Qed.

Lemma init_loop_spec (n : nat) :
  forall (fuel : nat) (it e : Z) (m : machine),
    (n <= fuel)%nat ->
    e = it + Z.of_nat n * sizeof_T ->
    init_loop fuel it e m =
      Done tt (Machine (m_data m) (store_list it (replicate n T_default) (heap m))
                 (allocator m)
                 (trace m ++ construct_events it (replicate n T_default))).
Proof.
  induction n as [|n IH]; intros fuel it e m Hf ->.
  - destruct fuel; simpl; (case_eqb; [|lia]); mstep;
      by rewrite app_nil_r, machine_eta.
  - destruct fuel as [|fuel]; [lia|].
    cbn [array.init_loop]. case_eqb; [nia|]. mstep.
    rewrite IH by nia. simpl. by rewrite <- app_assoc.
Qed.

(** *** The traversal *)

Lemma iterate_loop_spec (l : list T) :
  forall (fuel : nat) (it e : Z) (m : machine),
    (length l <= fuel)%nat ->
    e = it + Z.of_nat (length l) * sizeof_T ->
    read_list (heap m) it (length l) = Some l ->
    iterate_loop fuel it e m = Done l m.
Proof.
  induction l as [|v l IH]; intros fuel it e m Hf -> Hr.
  - destruct fuel; simpl; (case_eqb; [|lia]); done.
  - apply read_list_cons in Hr as [Hv Hr].
    destruct fuel as [|fuel]; [simpl in Hf; lia|].
    cbn [length array.iterate_loop] in *. case_eqb; [nia|].
    unfold array.load_T. mstep. rewrite Hv.
    rewrite IH; [done|lia|nia|done].
Qed.


(** *** The operations on a backed handle *)

(** The budget of a loop over [n] elements covers its [n] rounds. *)
Lemma span_budget (p : Z) (n : nat) :
  (n <= Z.to_nat (p + Z.of_nat n * sizeof_T - p))%nat.
Proof. apply Nat2Z.inj_le. rewrite Z2Nat.id by nia. nia. Qed.

Lemma set_data_spec (mem sz : Z) (m : machine) :
  set_data mem sz m =
    Done tt (Machine (mem + sizeof_size_t) (<[mem := CSize sz]> (heap m))
               (allocator m) (trace m)).
Proof. unfold array.set_data. mstep. do 2 f_equal. lia. Qed.

Lemma end_backed (m : machine) (n : Z) :
  m_data m <> 0 ->
  heap m !! (m_data m - sizeof_size_t) = Some (CSize n) ->
  end_ m = Done (m_data m + n * sizeof_T) m.
Proof.
  intros Hp Hh. unfold array.end_. mstep. by rewrite (size_backed m n).
Qed.

Lemma init_copy_spec (vs : Z) (l : list T) (m : machine) :
  m_data m <> 0 ->
  heap m !! (m_data m - sizeof_size_t) = Some (CSize (Z.of_nat (length l))) ->
  read_list (heap m) vs (length l) = Some l ->
  vs + Z.of_nat (length l) * sizeof_T <= m_data m \/
    m_data m + Z.of_nat (length l) * sizeof_T <= vs ->
  init_copy vs m =
    Done tt (Machine (m_data m) (store_list (m_data m) l (heap m)) (allocator m)
               (trace m ++ construct_events (m_data m) l)).
Proof.
  intros Hp Hh Hr Hd. unfold array.init_copy, array.begin. mstep.
  rewrite (end_backed m _ Hp Hh). mstep.
  apply init_copy_loop_spec; auto using span_budget.
Qed.

Lemma init_spec (n : nat) (m : machine) :
  m_data m <> 0 ->
  heap m !! (m_data m - sizeof_size_t) = Some (CSize (Z.of_nat n)) ->
  init m =
    Done tt (Machine (m_data m)
               (store_list (m_data m) (replicate n T_default) (heap m))
               (allocator m)
               (trace m ++ construct_events (m_data m) (replicate n T_default))).
Proof.
  intros Hp Hh. unfold array.init, array.begin. mstep.
  rewrite (end_backed m _ Hp Hh). mstep.
  apply init_loop_spec; auto using span_budget.
Qed.

Lemma destroy_elements_spec (n : nat) (m : machine) :
  m_data m <> 0 ->
  heap m !! (m_data m - sizeof_size_t) = Some (CSize (Z.of_nat n)) ->
  destroy_elements m =
    Done tt (Machine (m_data m) (heap m) (allocator m)
               (trace m ++ (EvDestroy <$> elem_addrs n (m_data m)))).
Proof.
  intros Hp Hh. unfold array.destroy_elements, array.begin. mstep.
  rewrite (end_backed m _ Hp Hh). mstep.
  apply destroy_loop_spec; auto using span_budget.
Qed.

Lemma size_block (m : machine) (l : list T) :
  block_at m l -> size m = Done (Z.of_nat (length l)) m.
Proof. intros (Hp & Hh & _). by apply size_backed. Qed.

Lemma iterate_block (m : machine) (l : list T) :
  block_at m l -> iterate m = Done l m.
Proof.
  intros (Hp & Hh & Hr). unfold array.iterate, array.begin. mstep.
  rewrite (end_backed m _ Hp Hh). mstep.
  apply iterate_loop_spec; auto using span_budget.
Qed.

Lemma iterate_empty (m : machine) : m_data m = 0 -> iterate m = Done [] m.
Proof.
  intros E. unfold array.iterate, array.begin, array.end_. mstep.
  rewrite (size_empty m E). mstep.
  destruct (Z.to_nat _); simpl; (case_eqb; [done|lia]).
Qed.

(** The machine that creation from [l] in the region at [mem] leaves. *)
Lemma created_block (mem : Z) (l : list T) (h : gmap Z (cell T)) (a : A)
    (tr : list (event T)) :
  0 < mem ->
  block_at
    (Machine (mem + sizeof_size_t)
       (store_list (mem + sizeof_size_t) l
          (<[mem := CSize (Z.of_nat (length l))]> h)) a tr) l.
Proof.
  intros Hm. repeat split; cbn [m_data heap].
  - lia.
  - rewrite store_list_lookup by lia.
    replace (mem + sizeof_size_t - sizeof_size_t) with mem by lia.
    apply lookup_insert_eq.
  - apply read_list_store_list.
Qed.

Lemma init_copy_fresh (mem vs : Z) (l : list T) (h : gmap Z (cell T)) (a : A)
    (tr : list (event T)) :
  0 < mem ->
  read_list h vs (length l) = Some l ->
  vs + Z.of_nat (length l) * sizeof_T <= mem \/
    mem + sizeof_size_t + Z.of_nat (length l) * sizeof_T <= vs ->
  init_copy vs
    (Machine (mem + sizeof_size_t) (<[mem := CSize (Z.of_nat (length l))]> h) a tr) =
    Done tt
      (Machine (mem + sizeof_size_t)
         (store_list (mem + sizeof_size_t) l
            (<[mem := CSize (Z.of_nat (length l))]> h))
         a (tr ++ construct_events (mem + sizeof_size_t) l)).
Proof.
  intros Hm Hr Hd.
  rewrite (init_copy_spec vs l); cbn [m_data heap allocator trace].
  - done.
  - lia.
  - replace (mem + sizeof_size_t - sizeof_size_t) with mem by lia.
    apply lookup_insert_eq.
  - rewrite read_list_insert by nia. done.
  - nia.
Qed.

Lemma round_trips_created (mem : Z) (l : list T) (h : gmap Z (cell T)) (a : A)
    (tr : list (event T)) :
  0 < mem ->
  round_trips l
    (Done tt
       (Machine (mem + sizeof_size_t)
          (store_list (mem + sizeof_size_t) l
             (<[mem := CSize (Z.of_nat (length l))]> h)) a tr)).
Proof.
  intros Hm. eexists. split; [done|].
  pose proof (created_block mem l h a tr Hm) as Hb.
  split; [by apply size_block | by apply iterate_block].
Qed.

(** Both [set] overloads: the assertion, then the rest. *)
Lemma set_mem_unfold (debug : bool) (mem sz vs : Z) (m : machine) :
  set_mem debug mem sz vs m =
    if debug && negb (m_data m =? 0) then Raise AssertionViolation m
    else init_copy vs
           (Machine (mem + sizeof_size_t) (<[mem := CSize sz]> (heap m))
              (allocator m) (trace m)).
Proof.
  unfold array.set_mem, array.SASSERT.
  destruct debug; mstep; [case_eqb; cbn [negb andb]; [|done]|];
    by rewrite set_data_spec.
Qed.

Lemma set_alloc_unfold (debug : bool) (sz vs : Z) (m : machine) :
  set_alloc debug sz vs m =
    if debug && negb (m_data m =? 0) then Raise AssertionViolation m
    else match allocate sz m with
         | Done _ m' => init_copy vs m'
         | Raise e m' => Raise e m'
         end.
Proof.
  unfold array.set_alloc, array.SASSERT.
  destruct debug; mstep; [case_eqb; cbn [negb andb]; [|done]|]; done.
Qed.

Lemma guard_ready (debug : bool) (m : machine) :
  m_data m = 0 \/ debug = false -> debug && negb (m_data m =? 0) = false.
Proof. intros [->| ->]; [by rewrite andb_false_r | done]. Qed.

Lemma guard_trapped (m : machine) :
  m_data m <> 0 -> true && negb (m_data m =? 0) = true.
Proof. intros Hp. by destruct (Z.eqb_spec (m_data m) 0). Qed.

Lemma set_mem_spec (debug : bool) (mem vs : Z) (l : list T) (m : machine) :
  0 < mem ->
  read_list (heap m) vs (length l) = Some l ->
  vs + Z.of_nat (length l) * sizeof_T <= mem \/
    mem + sizeof_size_t + Z.of_nat (length l) * sizeof_T <= vs ->
  m_data m = 0 \/ debug = false ->
  set_mem debug mem (Z.of_nat (length l)) vs m =
    Done tt
      (Machine (mem + sizeof_size_t)
         (store_list (mem + sizeof_size_t) l
            (<[mem := CSize (Z.of_nat (length l))]> (heap m)))
         (allocator m)
         (trace m ++ construct_events (mem + sizeof_size_t) l)).
Proof.
  intros Hm Hr Hd He. rewrite set_mem_unfold, guard_ready by done.
  by apply init_copy_fresh.
Qed.

Lemma allocate_spec (sz mem : Z) (a' : A) (m : machine) :
  a_allocate (allocator m) (space sz) = Some (mem, a') ->
  allocate sz m =
    Done tt (Machine (mem + sizeof_size_t) (<[mem := CSize sz]> (heap m)) a'
               (trace m ++ [EvAllocate (space sz) mem])).
Proof. intros Ha. unfold array.allocate. rewrite Ha. by rewrite set_data_spec. Qed.

Lemma allocate_fails (sz : Z) (m : machine) :
  a_allocate (allocator m) (space sz) = None ->
  allocate sz m = Raise AllocationFailure m.
Proof. intros Ha. unfold array.allocate. by rewrite Ha. Qed.

Lemma set_alloc_spec (debug : bool) (mem vs : Z) (l : list T) (a' : A) (m : machine) :
  0 < mem ->
  read_list (heap m) vs (length l) = Some l ->
  vs + Z.of_nat (length l) * sizeof_T <= mem \/
    mem + sizeof_size_t + Z.of_nat (length l) * sizeof_T <= vs ->
  m_data m = 0 \/ debug = false ->
  a_allocate (allocator m) (space (Z.of_nat (length l))) = Some (mem, a') ->
  set_alloc debug (Z.of_nat (length l)) vs m =
    Done tt
      (Machine (mem + sizeof_size_t)
         (store_list (mem + sizeof_size_t) l
            (<[mem := CSize (Z.of_nat (length l))]> (heap m)))
         a'
         (trace m ++ EvAllocate (space (Z.of_nat (length l))) mem
                       :: construct_events (mem + sizeof_size_t) l)).
Proof.
  intros Hm Hr Hd He Ha. rewrite set_alloc_unfold, guard_ready by done.
  rewrite (allocate_spec _ _ _ _ Ha).
  rewrite init_copy_fresh by done. by rewrite <- app_assoc.
Qed.

Lemma DEBUG_CODE_null (debug : bool) (m : machine) :
  array.DEBUG_CODE debug (array.put_m_data 0) m = Done tt (fresh debug m).
Proof. unfold array.DEBUG_CODE, fresh_object. by destruct debug. Qed.

Lemma fresh_ready (debug : bool) (m : machine) :
  m_data (fresh debug m) = 0 \/ debug = false.
Proof. destruct debug; auto. Qed.

Lemma fresh_heap (debug : bool) (m : machine) : heap (fresh debug m) = heap m.
Proof. by destruct debug. Qed.

Lemma fresh_allocator (debug : bool) (m : machine) :
  allocator (fresh debug m) = allocator m.
Proof. by destruct debug. Qed.

Lemma fresh_trace (debug : bool) (m : machine) : trace (fresh debug m) = trace m.
Proof. by destruct debug. Qed.

Lemma array_mem_vs_unfold (debug : bool) (mem sz vs : Z) (m : machine) :
  array_mem_vs debug mem sz vs m = set_mem debug mem sz vs (fresh debug m).
Proof.
  unfold array.array_mem_vs. unfold mbind at 1, array.M_bind at 1.
  by rewrite DEBUG_CODE_null.
Qed.

Lemma array_alloc_vs_unfold (debug : bool) (sz vs : Z) (m : machine) :
  array_alloc_vs debug sz vs m = set_alloc debug sz vs (fresh debug m).
Proof.
  unfold array.array_alloc_vs. unfold mbind at 1, array.M_bind at 1.
  by rewrite DEBUG_CODE_null.
Qed.

(** Creation from a source array establishes [block_at]. *)
Lemma set_mem_block (debug : bool) (mem vs : Z) (l : list T) (m : machine) :
  0 < mem ->
  read_list (heap m) vs (length l) = Some l ->
  vs + Z.of_nat (length l) * sizeof_T <= mem \/
    mem + sizeof_size_t + Z.of_nat (length l) * sizeof_T <= vs ->
  m_data m = 0 \/ debug = false ->
  exists m' : machine,
    set_mem debug mem (Z.of_nat (length l)) vs m = Done tt m' /\ block_at m' l.
Proof.
  intros Hm Hr Hd He. eexists. split; [by apply set_mem_spec|].
  by apply created_block.
Qed.

Lemma set_alloc_block (debug : bool) (mem vs : Z) (l : list T) (a' : A)
    (m : machine) :
  0 < mem ->
  read_list (heap m) vs (length l) = Some l ->
  vs + Z.of_nat (length l) * sizeof_T <= mem \/
    mem + sizeof_size_t + Z.of_nat (length l) * sizeof_T <= vs ->
  m_data m = 0 \/ debug = false ->
  a_allocate (allocator m) (space (Z.of_nat (length l))) = Some (mem, a') ->
  exists m' : machine,
    set_alloc debug (Z.of_nat (length l)) vs m = Done tt m' /\ block_at m' l.
Proof.
  intros Hm Hr Hd He Ha. eexists. split; [by apply (set_alloc_spec _ mem _ _ a')|].
  by apply created_block.
Qed.

(** C1.  Copy round trip: for every sequence [l] of values stored from [vs],
    and every region [mem] that does not overlap it, creating a block from
    the sequence -- by [set] into the region, by [set] through the allocator,
    or by either constructor that takes a source array -- returns, after which
    [size()] is the length of [l] and a traversal from [begin()] to [end()]
    reads exactly [l], in order.  [set] is called on an empty handle; a
    constructor starts from whatever the fresh object holds. *)
Theorem copy_round_trip (debug : bool) (m : machine) (mem vs : Z) (l : list T) :
  0 < mem ->
  read_list (heap m) vs (length l) = Some l ->
  vs + Z.of_nat (length l) * sizeof_T <= mem \/
    mem + sizeof_size_t + Z.of_nat (length l) * sizeof_T <= vs ->
  (m_data m = 0 ->
   round_trips l (set_mem debug mem (Z.of_nat (length l)) vs m)) /\
  round_trips l (array_mem_vs debug mem (Z.of_nat (length l)) vs m) /\
  (forall a' : A,
     a_allocate (allocator m) (space (Z.of_nat (length l))) = Some (mem, a') ->
     (m_data m = 0 ->
      round_trips l (set_alloc debug (Z.of_nat (length l)) vs m)) /\
     round_trips l (array_alloc_vs debug (Z.of_nat (length l)) vs m)).
Proof.
  intros Hm Hr Hd. repeat split.
  - intros E. rewrite set_mem_spec by auto. by apply round_trips_created.
  - rewrite array_mem_vs_unfold, set_mem_spec;
      rewrite ?fresh_heap; auto using fresh_ready.
    by apply round_trips_created.
  - intros E. rewrite (set_alloc_spec debug mem vs l a') by auto.
    by apply round_trips_created.
  - rewrite array_alloc_vs_unfold, (set_alloc_spec debug mem vs l a');
      rewrite ?fresh_heap, ?fresh_allocator; auto using fresh_ready.
    by apply round_trips_created.
Qed.


(** *** What the loops leave alone *)

Lemma only_emits_refl {X : Type} (P : event T -> bool) (m : machine) (x : X) :
  only_emits P m (Done x m).
Proof. repeat split. exists []. by rewrite app_nil_r. Qed.

Lemma only_emits_raise {X : Type} (P : event T -> bool) (m : machine) (e : error) :
  only_emits P m (Raise (X:=X) e m).
Proof. repeat split. exists []. by rewrite app_nil_r. Qed.

Lemma only_emits_step {X : Type} (P : event T -> bool) (m : machine)
    (h : gmap Z (cell T)) (ev : event T) (o : outcome T A X) :
  P ev = true ->
  only_emits P (Machine (m_data m) h (allocator m) (trace m ++ [ev])) o ->
  only_emits P m o.
Proof.
  intros Hev (Hp & Ha & evs & Ht & Hall). repeat split; [done..|].
  exists (ev :: evs). cbn [trace] in Ht. rewrite Ht, <- app_assoc. split; [done|].
  simpl. by rewrite Hev.
Qed.

Lemma init_copy_loop_frame (fuel : nat) :
  forall (it e vs : Z) (m : machine),
    only_emits is_construct m (init_copy_loop fuel it e vs m) /\
    is_trapped (init_copy_loop fuel it e vs m) = false.
Proof.
  induction fuel as [|fuel IH]; intros it e vs m; simpl; case_eqb;
    try (split; [apply only_emits_refl || apply only_emits_raise | done]).
  unfold array.load_T. mstep.
  destruct (heap m !! vs) as [[|v]|];
    try (split; [apply only_emits_raise | done]).
  destruct (IH (it + sizeof_T) e (vs + sizeof_T)
              (Machine (m_data m) (<[it := CElem v]> (heap m)) (allocator m)
                 (trace m ++ [EvConstruct it v]))) as [Ho Ht].
  split; [|done].
  by apply (only_emits_step _ _ (<[it := CElem v]> (heap m)) (EvConstruct it v)).
Qed.

Lemma init_loop_frame (fuel : nat) :
  forall (it e : Z) (m : machine),
    only_emits is_construct m (init_loop fuel it e m) /\
    is_trapped (init_loop fuel it e m) = false.
Proof.
  induction fuel as [|fuel IH]; intros it e m; simpl; case_eqb;
    try (split; [apply only_emits_refl || apply only_emits_raise | done]).
  mstep.
  destruct (IH (it + sizeof_T) e
              (Machine (m_data m) (<[it := CElem T_default]> (heap m)) (allocator m)
                 (trace m ++ [EvConstruct it T_default]))) as [Ho Ht].
  split; [|done].
  by apply (only_emits_step _ _ (<[it := CElem T_default]> (heap m))
              (EvConstruct it T_default)).
Qed.

Lemma destroy_loop_frame (fuel : nat) :
  forall (it e : Z) (m : machine),
    only_emits is_destroy m (destroy_loop fuel it e m) /\
    is_trapped (destroy_loop fuel it e m) = false /\
    heap (final (destroy_loop fuel it e m)) = heap m.
Proof.
  induction fuel as [|fuel IH]; intros it e m; simpl; case_eqb;
    try (split; [apply only_emits_refl || apply only_emits_raise | done]).
  mstep.
  destruct (IH (it + sizeof_T) e
              (Machine (m_data m) (heap m) (allocator m)
                 (trace m ++ [EvDestroy it]))) as (Ho & Ht & Hh).
  split; [|done].
  by apply (only_emits_step _ _ (heap m) (EvDestroy it)).
Qed.

(** [size()] never changes the machine, whether it returns or not. *)
Lemma size_cases (m : machine) :
  (exists n : Z, size m = Done n m) \/ size m = Raise InvalidAccess m.
Proof.
  unfold array.size, array.load_size. mstep. case_eqb; [by left; eexists|].
  destruct (heap m !! _) as [[n'|v]|]; [by left; eexists|by right..].
Qed.

Lemma end_cases (m : machine) :
  (exists e : Z, end_ m = Done e m) \/ end_ m = Raise InvalidAccess m.
Proof.
  unfold array.end_. mstep.
  destruct (size_cases m) as [[n ->]| ->]; [by left; eexists|by right].
Qed.

Lemma init_copy_frame (vs : Z) (m : machine) :
  only_emits is_construct m (init_copy vs m) /\ is_trapped (init_copy vs m) = false.
Proof.
  unfold array.init_copy, array.begin. mstep.
  destruct (end_cases m) as [[e ->]| ->]; [|split; [apply only_emits_raise|done]].
  apply init_copy_loop_frame.
Qed.

Lemma init_frame (m : machine) :
  only_emits is_construct m (init m) /\ is_trapped (init m) = false.
Proof.
  unfold array.init, array.begin. mstep.
  destruct (end_cases m) as [[e ->]| ->]; [|split; [apply only_emits_raise|done]].
  apply init_loop_frame.
Qed.

Lemma destroy_elements_frame (m : machine) :
  only_emits is_destroy m (destroy_elements m) /\
  is_trapped (destroy_elements m) = false /\
  heap (final (destroy_elements m)) = heap m.
Proof.
  unfold array.destroy_elements, array.begin. mstep.
  destruct (end_cases m) as [[e ->]| ->]; [|split; [apply only_emits_raise|done]].
  apply destroy_loop_frame.
Qed.


(** *** Teardown *)

Lemma finalize_empty_handle (CallDestructors : bool) (m : machine) :
  m_data m = 0 -> finalize CallDestructors m = Done tt m.
Proof. intros E. unfold array.finalize. mstep. by rewrite E. Qed.

Lemma finalize_spec (CallDestructors : bool) (m : machine) (n : nat) :
  m_data m <> 0 ->
  heap m !! (m_data m - sizeof_size_t) = Some (CSize (Z.of_nat n)) ->
  finalize CallDestructors m =
    Done tt
      (Machine 0 (heap m)
         (a_deallocate (allocator m) (Z.of_nat n) (m_data m - sizeof_size_t))
         (trace m
            ++ (if CallDestructors then EvDestroy <$> elem_addrs n (m_data m) else [])
            ++ [EvDeallocate (Z.of_nat n) (m_data m - sizeof_size_t)])).
Proof.
  intros Hp Hh. unfold array.finalize. mstep. case_eqb; [done|]. cbn [negb].
  destruct CallDestructors.
  - rewrite (destroy_elements_spec n m Hp Hh).
    rewrite size_backed with (n := Z.of_nat n) by done.
    unfold array.raw_ptr, array.deallocate. mstep.
    replace (m_data m - 1 * sizeof_size_t) with (m_data m - sizeof_size_t) by lia.
    by rewrite <- app_assoc.
  - mstep. rewrite size_backed with (n := Z.of_nat n) by done.
    unfold array.raw_ptr, array.deallocate. mstep.
    replace (m_data m - 1 * sizeof_size_t) with (m_data m - sizeof_size_t) by lia.
    done.
Qed.

(** C2.  [finalize] on a non-empty handle whose header counts [n] elements
    (so [size()] is [n]), all of them inside the address space: with
    [CallDestructors] it calls the destructor of
    each of the [n] elements, once each, first element first, and without
    [CallDestructors] it calls none; then it calls [a.deallocate] with the
    count and the start of the region, the address of the header; then it
    nulls [m_data], so that afterwards [empty()] is true and [size()] is 0.
    Nothing else happens: the heap is as it was. *)
Theorem finalize_backed (CallDestructors : bool) (m : machine) (n : nat) :
  m_data m <> 0 ->
  heap m !! (m_data m - sizeof_size_t) = Some (CSize (Z.of_nat n)) ->
  in_address_space (m_data m) (Z.of_nat n) ->
  exists (m' : machine) (destroyed : list Z),
    finalize CallDestructors m = Done tt m' /\
    size m = Done (Z.of_nat n) m /\
    raw_ptr m = Done (m_data m - sizeof_size_t) m /\
    destroyed = (if CallDestructors then elem_addrs n (m_data m) else []) /\
    trace m' =
      trace m ++ (EvDestroy <$> destroyed)
        ++ [EvDeallocate (Z.of_nat n) (m_data m - sizeof_size_t)] /\
    (CallDestructors = true ->
     length destroyed = n /\ NoDup destroyed /\
     forall i : nat,
       (i < n)%nat -> destroyed !! i = Some (m_data m + Z.of_nat i * sizeof_T)) /\
    allocator m' =
      a_deallocate (allocator m) (Z.of_nat n) (m_data m - sizeof_size_t) /\
    heap m' = heap m /\
    m_data m' = 0 /\
    empty m' = Done true m' /\
    size m' = Done 0 m'.
Proof.
  intros Hp Hh _. eexists _, _.
  split; [by apply finalize_spec|].
  split; [by apply size_backed|].
  split.
  { unfold array.raw_ptr. mstep. do 2 f_equal. lia. }
  split; [reflexivity|].
  cbn [trace allocator heap m_data].
  split; [by destruct CallDestructors|].
  split.
  { intros ->. split; [apply elem_addrs_length|].
    split; [apply elem_addrs_NoDup | apply elem_addrs_lookup]. }
  repeat split.
Qed.

(** The region that [finalize] hands back is the one [allocate] handed out. *)
Lemma finalize_returns_allocation (debug CallDestructors : bool) (m : machine)
    (mem vs : Z) (l : list T) (a' : A) :
  0 < mem ->
  read_list (heap m) vs (length l) = Some l ->
  vs + Z.of_nat (length l) * sizeof_T <= mem \/
    mem + sizeof_size_t + Z.of_nat (length l) * sizeof_T <= vs ->
  m_data m = 0 ->
  a_allocate (allocator m) (space (Z.of_nat (length l))) = Some (mem, a') ->
  exists m' : machine,
    (set_alloc debug (Z.of_nat (length l)) vs;; finalize CallDestructors) m
      = Done tt m' /\
    allocator m' = a_deallocate a' (Z.of_nat (length l)) mem /\
    m_data m' = 0.
Proof.
  intros Hm Hr Hd E Ha. unfold mbind at 1, array.M_bind at 1.
  rewrite (set_alloc_spec debug mem vs l a') by auto.
  rewrite (finalize_spec _ _ (length l)); cbn [m_data heap allocator trace].
  - eexists. split; [done|]. cbn [m_data allocator]. split; [|done].
    f_equal. lia.
  - lia.
  - rewrite store_list_lookup by lia.
    replace (mem + sizeof_size_t - sizeof_size_t) with mem by lia.
    apply lookup_insert_eq.
Qed.

Lemma destroy_events_no_deallocate (ps : list Z) :
  existsb is_deallocate (EvDestroy (T:=T) <$> ps) = false.
Proof. induction ps; simpl; auto. Qed.

(** C6.  On a handle that is empty or points at a block of [n] elements inside
    the address space, the destructor calls the element destructors -- of
    every element, first to last -- exactly when [CallDestructors] is set and
    [m_data] is not null, and does nothing otherwise.  In both cases it returns with [m_data],
    the heap (so the stored count) and the allocator as they were, and adds no
    [deallocate] call; [finalize], on the same non-empty handle, nulls
    [m_data]. *)
Theorem array_dtor_frame (CallDestructors : bool) (m : machine) (n : nat) :
  (m_data m <> 0 ->
   heap m !! (m_data m - sizeof_size_t) = Some (CSize (Z.of_nat n)) /\
   in_address_space (m_data m) (Z.of_nat n)) ->
  exists teardown : list (event T),
    teardown =
      (if CallDestructors && negb (m_data m =? 0)
       then EvDestroy <$> elem_addrs n (m_data m) else []) /\
    array_dtor CallDestructors m =
      Done tt (Machine (m_data m) (heap m) (allocator m) (trace m ++ teardown)) /\
    existsb is_deallocate teardown = false /\
    (m_data m <> 0 ->
     m_data (final (array_dtor CallDestructors m)) <> 0 /\
     m_data (final (finalize CallDestructors m)) = 0).
Proof.
  intros Hblock.
  assert (m_data m <> 0 ->
          heap m !! (m_data m - sizeof_size_t) = Some (CSize (Z.of_nat n)))
    as Hh by (intros Hp; by destruct (Hblock Hp)).
  eexists. split; [reflexivity|].
  assert (array_dtor CallDestructors m =
            Done tt (Machine (m_data m) (heap m) (allocator m)
                       (trace m ++
                          (if CallDestructors && negb (m_data m =? 0)
                           then EvDestroy <$> elem_addrs n (m_data m) else []))))
    as Hd.
  { unfold array.array_dtor. mstep. rewrite andb_comm.
    destruct CallDestructors; cbn [andb]; [case_eqb; cbn [negb]|].
    - by rewrite app_nil_r, machine_eta.
    - by apply destroy_elements_spec; auto.
    - by rewrite app_nil_r, machine_eta. }
  rewrite Hd. cbn [final]. split; [done|]. split.
  - destruct (CallDestructors && negb (m_data m =? 0)); [|done].
    apply destroy_events_no_deallocate.
  - intros Hp. cbn [m_data]. split; [done|].
    by rewrite (finalize_spec _ _ n) by auto.
Qed.

Lemma finalize_nulls (CallDestructors : bool) (m m' : machine) :
  finalize CallDestructors m = Done tt m' -> m_data m' = 0.
Proof.
  unfold array.finalize. mstep. case_eqb; cbn [negb].
  - by intros [= <-].
  - destruct (_ m) as [[] m1|]; [|done].
    destruct (size m1) as [k m2|]; [|done].
    unfold array.raw_ptr, array.deallocate. mstep. by intros [= <-].
Qed.

(** C7.  [finalize] on an empty handle returns at once: the machine -- the
    handle, the heap, the allocator and the trace, so no destructor and no
    [deallocate] call -- is as it was.  Hence a second [finalize] after any
    [finalize] that returned changes nothing. *)
Theorem finalize_idempotent (CallDestructors : bool) (m : machine) :
  (m_data m = 0 -> finalize CallDestructors m = Done tt m) /\
  (forall m' : machine,
     finalize CallDestructors m = Done tt m' ->
     finalize CallDestructors m' = Done tt m').
Proof.
  split; [apply finalize_empty_handle|].
  intros m' Hf. apply finalize_empty_handle. by apply finalize_nulls in Hf.
Qed.


(** *** Assertions and allocation failure *)

Lemma allocate_cases (sz : Z) (m : machine) :
  (a_allocate (allocator m) (space sz) = None /\
   allocate sz m = Raise AllocationFailure m) \/
  (exists (mem : Z) (a' : A),
     a_allocate (allocator m) (space sz) = Some (mem, a') /\
     allocate sz m =
       Done tt (Machine (mem + sizeof_size_t) (<[mem := CSize sz]> (heap m)) a'
                  (trace m ++ [EvAllocate (space sz) mem]))).
Proof.
  destruct (a_allocate (allocator m) (space sz)) as [[mem a']|] eqn:Ha.
  - right. exists mem, a'. split; [done|]. by apply allocate_spec.
  - left. split; [done|]. by apply allocate_fails.
Qed.

Lemma set_mem_not_trapped (debug : bool) (mem sz vs : Z) (m : machine) :
  m_data m = 0 \/ debug = false ->
  is_trapped (set_mem debug mem sz vs m) = false.
Proof.
  intros He. rewrite set_mem_unfold, guard_ready by done. apply init_copy_frame.
Qed.

Lemma set_alloc_not_trapped (debug : bool) (sz vs : Z) (m : machine) :
  m_data m = 0 \/ debug = false ->
  is_trapped (set_alloc debug sz vs m) = false.
Proof.
  intros He. rewrite set_alloc_unfold, guard_ready by done.
  destruct (allocate_cases sz m) as [[_ ->]|(mem & a' & _ & ->)]; [done|].
  apply init_copy_frame.
Qed.

Lemma set_mem_trapped (mem sz vs : Z) (m : machine) :
  m_data m <> 0 -> set_mem true mem sz vs m = Raise AssertionViolation m.
Proof.
  intros Hp. by rewrite set_mem_unfold, guard_trapped.
Qed.

Lemma set_alloc_trapped (sz vs : Z) (m : machine) :
  m_data m <> 0 -> set_alloc true sz vs m = Raise AssertionViolation m.
Proof.
  intros Hp. by rewrite set_alloc_unfold, guard_trapped.
Qed.

Lemma set_mem_m_data (debug : bool) (mem sz vs : Z) (m m' : machine) :
  set_mem debug mem sz vs m = Done tt m' -> m_data m' = mem + sizeof_size_t.
Proof.
  rewrite set_mem_unfold.
  destruct (debug && negb (m_data m =? 0)); [done|]. intros Hi.
  destruct (init_copy_frame vs
              (Machine (mem + sizeof_size_t) (<[mem := CSize sz]> (heap m))
                 (allocator m) (trace m))) as [(Hp & _) _].
  by rewrite Hi in Hp.
Qed.

Lemma set_alloc_m_data (debug : bool) (sz vs : Z) (m m' : machine) :
  set_alloc debug sz vs m = Done tt m' ->
  exists (mem : Z) (a' : A),
    a_allocate (allocator m) (space sz) = Some (mem, a') /\
    m_data m' = mem + sizeof_size_t.
Proof.
  rewrite set_alloc_unfold.
  destruct (debug && negb (m_data m =? 0)); [done|].
  destruct (allocate_cases sz m) as [[_ ->]|(mem & a' & Ha & ->)]; [done|].
  intros Hi. exists mem, a'. split; [done|].
  destruct (init_copy_frame vs
              (Machine (mem + sizeof_size_t) (<[mem := CSize sz]> (heap m)) a'
                 (trace m ++ [EvAllocate (space sz) mem]))) as [(Hp & _) _].
  by rewrite Hi in Hp.
Qed.

Lemma array_mem_init_unfold (debug : bool) (mem sz : Z) (init_mem : bool)
    (m : machine) :
  array_mem_init debug mem sz init_mem m =
    (if init_mem then init else mret tt)
      (Machine (mem + sizeof_size_t) (<[mem := CSize sz]> (heap m))
         (allocator m) (trace m)).
Proof.
  unfold array.array_mem_init. mstep. rewrite DEBUG_CODE_null, set_data_spec.
  by rewrite fresh_heap, fresh_allocator, fresh_trace.
Qed.

Lemma array_alloc_init_unfold (debug : bool) (sz : Z) (init_mem : bool)
    (m : machine) :
  array_alloc_init debug sz init_mem m =
    match allocate sz (fresh debug m) with
    | Done _ m' => (if init_mem then init else mret tt) m'
    | Raise e m' => Raise e m'
    end.
Proof.
  unfold array.array_alloc_init. mstep. by rewrite DEBUG_CODE_null.
Qed.

Lemma init_opt_frame (init_mem : bool) (m : machine) :
  only_emits is_construct m ((if init_mem then init else mret tt) m) /\
  is_trapped ((if init_mem then init else mret tt) m) = false.
Proof.
  destruct init_mem; [apply init_frame|]. split; [apply only_emits_refl|done].
Qed.

(** C8 (as amended).  Creating into a handle that is already backed is trapped
    in a debug build when it goes through [set]: both [set] overloads assert [m_data == 0] before anything else, so
    on a non-empty handle they stop with the assertion and leave the machine
    as it was, and on an empty handle the assertion passes.  In particular a
    second [set] after a [set] that returned is trapped.  The constructors
    are not checked: a debug build nulls the pointer first, whatever it held,
    so none of the four stops at the assertion (and the two that take
    [init_mem] contain none). *)
Theorem create_twice_trapped (m : machine) (mem sz vs : Z) :
  (m_data m <> 0 ->
   set_mem true mem sz vs m = Raise AssertionViolation m /\
   set_alloc true sz vs m = Raise AssertionViolation m) /\
  (m_data m = 0 ->
   is_trapped (set_mem true mem sz vs m) = false /\
   is_trapped (set_alloc true sz vs m) = false) /\
  (forall (m1 : machine) (mem2 sz2 vs2 : Z),
     0 < mem ->
     set_mem true mem sz vs m = Done tt m1 ->
     set_mem true mem2 sz2 vs2 m1 = Raise AssertionViolation m1 /\
     set_alloc true sz2 vs2 m1 = Raise AssertionViolation m1) /\
  (forall init_mem : bool,
     is_trapped (array_mem_vs true mem sz vs m) = false /\
     is_trapped (array_mem_init true mem sz init_mem m) = false /\
     is_trapped (array_alloc_vs true sz vs m) = false /\
     is_trapped (array_alloc_init true sz init_mem m) = false).
Proof.
  split; [|split; [|split]].
  - intros Hp. split; [by apply set_mem_trapped | by apply set_alloc_trapped].
  - intros E. split; [apply set_mem_not_trapped | apply set_alloc_not_trapped]; auto.
  - intros m1 mem2 sz2 vs2 Hm Hs. apply set_mem_m_data in Hs.
    split; [apply set_mem_trapped | apply set_alloc_trapped]; lia.
  - intros init_mem. repeat split.
    + rewrite array_mem_vs_unfold. apply set_mem_not_trapped. by left.
    + rewrite array_mem_init_unfold. apply init_opt_frame.
    + rewrite array_alloc_vs_unfold. apply set_alloc_not_trapped. by left.
    + rewrite array_alloc_init_unfold.
      destruct (allocate_cases sz (fresh true m)) as [[_ ->]|(p & a' & _ & ->)];
        [done|]. apply init_opt_frame.
Qed.

Lemma trace_after_allocate {X : Type} (tr : list (event T)) (ev : event T)
    (m1 : machine) (o : outcome T A X) :
  trace m1 = tr ++ [ev] ->
  only_emits is_construct m1 o ->
  exists evs : list (event T),
    trace (final o) = tr ++ ev :: evs /\ forallb is_construct evs = true.
Proof.
  intros Ht (_ & _ & evs & Hevs & Hall). exists evs. split; [|done].
  by rewrite Hevs, Ht, <- app_assoc.
Qed.

(** C9.  The three allocator-backed ways to create a block call
    [a.allocate(space(sz))] before they construct anything.  When the
    allocation fails they stop there: [set] leaves the machine exactly as it
    was, and a constructor leaves the heap and the trace as they were (no
    element was constructed; only the pointer of the fresh object was nulled,
    in a debug build).  When it succeeds, the call to [allocate] is the first
    thing they add to the trace, and everything after it is a construction. *)
Theorem allocation_precedes_construction (debug : bool) (m : machine)
    (sz vs : Z) (init_mem : bool) :
  match a_allocate (allocator m) (space sz) with
  | None =>
      (m_data m = 0 -> set_alloc debug sz vs m = Raise AllocationFailure m) /\
      array_alloc_vs debug sz vs m = Raise AllocationFailure (fresh debug m) /\
      array_alloc_init debug sz init_mem m =
        Raise AllocationFailure (fresh debug m) /\
      heap (fresh debug m) = heap m /\
      trace (fresh debug m) = trace m
  | Some (mem, a') =>
      forall o : outcome T A unit,
        (m_data m = 0 /\ o = set_alloc debug sz vs m) \/
        o = array_alloc_vs debug sz vs m \/
        o = array_alloc_init debug sz init_mem m ->
        exists evs : list (event T),
          trace (final o) = trace m ++ EvAllocate (space sz) mem :: evs /\
          forallb is_construct evs = true
  end.
Proof.
  assert (forall m0 : machine,
            m_data m0 = 0 \/ debug = false ->
            set_alloc debug sz vs m0 =
              match allocate sz m0 with
              | Done _ m' => init_copy vs m'
              | Raise e m' => Raise e m'
              end) as Hset.
  { intros m0 He. by rewrite set_alloc_unfold, guard_ready. }
  destruct (a_allocate (allocator m) (space sz)) as [[mem a']|] eqn:Ha.
  - assert (forall m0 : machine,
              allocator m0 = allocator m -> trace m0 = trace m ->
              exists m1 : machine,
                allocate sz m0 = Done tt m1 /\
                trace m1 = trace m ++ [EvAllocate (space sz) mem]) as Hal.
    { intros m0 Ea Et. eexists. split.
      - apply allocate_spec. rewrite Ea. exact Ha.
      - cbn [trace]. by rewrite Et. }
    intros o [[E ->]|[->| ->]].
    + rewrite Hset by auto. destruct (Hal m eq_refl eq_refl) as (m1 & -> & Ht).
      eapply trace_after_allocate; [done|]. apply init_copy_frame.
    + rewrite array_alloc_vs_unfold, Hset by apply fresh_ready.
      destruct (Hal (fresh debug m) (fresh_allocator _ _) (fresh_trace _ _))
        as (m1 & -> & Ht).
      eapply trace_after_allocate; [done|]. apply init_copy_frame.
    + rewrite array_alloc_init_unfold.
      destruct (Hal (fresh debug m) (fresh_allocator _ _) (fresh_trace _ _))
        as (m1 & -> & Ht).
      eapply trace_after_allocate; [done|]. apply init_opt_frame.
  - assert (allocate sz (fresh debug m) = Raise AllocationFailure (fresh debug m))
      as Hf by (apply allocate_fails; by rewrite fresh_allocator).
    split; [|split; [|split]].
    + intros E. rewrite Hset by auto. by rewrite allocate_fails.
    + rewrite array_alloc_vs_unfold, Hset by apply fresh_ready. by rewrite Hf.
    + rewrite array_alloc_init_unfold. by rewrite Hf.
    + split; [apply fresh_heap | apply fresh_trace].
Qed.


(** *** Indexed access *)

Lemma read_list_lookup (h : gmap Z (cell T)) (l : list T) :
  forall (p : Z) (i : nat) (v : T),
    read_list h p (length l) = Some l ->
    l !! i = Some v ->
    h !! (p + Z.of_nat i * sizeof_T) = Some (CElem v).
Proof.
  induction l as [|x l IH]; intros p i v Hr Hi; [done|].
  apply read_list_cons in Hr as [Hx Hr]. destruct i as [|i].
  - injection Hi as ->. by replace (p + Z.of_nat 0 * sizeof_T) with p by lia.
  - replace (p + Z.of_nat (S i) * sizeof_T)
      with (p + sizeof_T + Z.of_nat i * sizeof_T) by lia.
    by apply IH.
Qed.

Lemma read_list_update (h : gmap Z (cell T)) (w : T) (l : list T) :
  forall (p : Z) (j : nat),
    read_list h p (length l) = Some l ->
    (j < length l)%nat ->
    read_list (<[p + Z.of_nat j * sizeof_T := CElem w]> h) p (length (<[j := w]> l))
      = Some (<[j := w]> l).
Proof.
  induction l as [|x l IH]; intros p j Hr Hj; [simpl in Hj; lia|].
  apply read_list_cons in Hr as [Hx Hr]. destruct j as [|j].
  - cbn [list_insert length]. apply read_list_cons. split.
    + replace (p + Z.of_nat 0 * sizeof_T) with p by lia. apply lookup_insert_eq.
    + rewrite read_list_insert by lia. done.
  - cbn [list_insert length]. apply read_list_cons. split.
    + rewrite lookup_insert_ne by lia. done.
    + replace (p + Z.of_nat (S j) * sizeof_T)
        with (p + sizeof_T + Z.of_nat j * sizeof_T) by lia.
      apply IH; [done|]. simpl in Hj. lia.
Qed.

Lemma operator_index_spec (debug : bool) (idx n : Z) (m : machine) :
  size m = Done n m ->
  operator_index debug idx m =
    if debug && negb (idx <? n) then Raise AssertionViolation m
    else Done (m_data m + idx * sizeof_T) m.
Proof.
  intros Hs. unfold array.operator_index, array.SASSERT.
  destruct debug; mstep; [|done]. rewrite Hs. by destruct (idx <? n).
Qed.

Lemma operator_index_release (idx : Z) (m : machine) :
  operator_index false idx m = Done (m_data m + idx * sizeof_T) m.
Proof. done. Qed.

(** C5.  On a handle that points at a block holding the values [l]:
    [operator[]] with an index below [size()] returns a reference to the
    element at that position, which reads as the value placed there at
    construction; after an assignment through such a reference the block
    holds [l] with that one position replaced, so later reads see the
    mutation and nothing else changes.  On any handle, an index at or beyond
    [size()] fails the assertion in a debug build and the access does not
    happen; a release build performs no check at all, and for as long as
    [m_data + idx * sizeof(T)] lies inside the address space that is the
    address it forms, whatever [size()] is. *)
Theorem index_access (debug : bool) (m : machine) :
  (forall l : list T,
     block_at m l ->
     (forall (i : nat) (v : T),
        l !! i = Some v ->
        operator_index debug (Z.of_nat i) m
          = Done (m_data m + Z.of_nat i * sizeof_T) m /\
        load_T (m_data m + Z.of_nat i * sizeof_T) m = Done v m) /\
     (forall (j : nat) (w : T),
        (j < length l)%nat ->
        exists m' : machine,
          (r ← operator_index debug (Z.of_nat j); store_T r w) m = Done tt m' /\
          block_at m' (<[j := w]> l))) /\
  (forall n idx : Z,
     size m = Done n m ->
     n <= idx ->
     operator_index true idx m = Raise AssertionViolation m) /\
  (forall idx : Z,
     in_address_space (m_data m) idx ->
     operator_index false idx m = Done (m_data m + idx * sizeof_T) m).
Proof.
  split.
  - intros l Hb. pose proof (size_block m l Hb) as Hs.
    destruct Hb as (Hp & Hh & Hr). split.
    + intros i v Hi. pose proof (lookup_lt_Some _ _ _ Hi) as Hlt. split.
      * rewrite (operator_index_spec _ _ _ _ Hs).
        destruct (Z.ltb_spec (Z.of_nat i) (Z.of_nat (length l))); [|lia].
        by rewrite andb_false_r.
      * unfold array.load_T. by rewrite (read_list_lookup _ l _ i v Hr Hi).
    + intros j w Hj. eexists. split.
      * mstep. rewrite (operator_index_spec _ _ _ _ Hs).
        destruct (Z.ltb_spec (Z.of_nat j) (Z.of_nat (length l))); [|lia].
        by rewrite andb_false_r.
      * repeat split; cbn [m_data heap].
        -- done.
        -- rewrite lookup_insert_ne by nia. by rewrite length_insert.
        -- by apply read_list_update.
  - split; [|intros idx _; apply operator_index_release].
    intros n idx Hs Hle. rewrite (operator_index_spec _ _ _ _ Hs).
    by destruct (Z.ltb_spec idx n); [lia|].
Qed.

(** *** The size of a block in bytes *)

(** C4 (as amended).  [space] is a function of [sz] alone -- it takes no
    machine and returns a number -- and its value is [sz * sizeof(T) +
    sizeof(size_t)] reduced modulo [2 ^ (8 * sizeof(size_t))], the arithmetic
    of [size_t]; it is exactly [sz * sizeof(T) + sizeof(size_t)] whenever
    that number fits in a [size_t]. *)
Theorem space_spec (sz : Z) :
  0 <= sz ->
  space sz = (sz * sizeof_T + sizeof_size_t) mod 2 ^ (8 * sizeof_size_t) /\
  (sz * sizeof_T + sizeof_size_t < 2 ^ (8 * sizeof_size_t) ->
   space sz = sz * sizeof_T + sizeof_size_t).
Proof.
  intros Hsz.
  assert (space sz = (sz * sizeof_T + sizeof_size_t) mod 2 ^ (8 * sizeof_size_t))
    as Hw.
  { unfold array.space, array.wrap, array.size_t_modulus.
    rewrite Zplus_mod_idemp_l. f_equal. lia. }
  split; [done|]. intros Hfit. rewrite Hw. apply Z.mod_small. nia.
Qed.


(** *** Which handles are empty *)

Lemma iterate_loop_same (fuel : nat) :
  forall (it e : Z) (m : machine), final (iterate_loop fuel it e m) = m.
Proof.
  induction fuel as [|fuel IH]; intros it e m; simpl; case_eqb; try done.
  unfold array.load_T. mstep. destruct (heap m !! it) as [[|v]|]; try done.
  specialize (IH (it + sizeof_T) e m).
  by destruct (iterate_loop fuel (it + sizeof_T) e m).
Qed.

Lemma iterate_same (m : machine) : final (iterate m) = m.
Proof.
  unfold array.iterate, array.begin. mstep.
  destruct (end_cases m) as [[e ->]| ->]; [|done].
  apply iterate_loop_same.
Qed.

Lemma operator_index_same (debug : bool) (idx : Z) (m : machine) :
  final (operator_index debug idx m) = m.
Proof.
  destruct (size_cases m) as [[n Hs]|Hs].
  - rewrite (operator_index_spec _ _ _ _ Hs).
    by destruct (debug && negb (idx <? n)).
  - unfold array.operator_index, array.SASSERT.
    destruct debug; mstep; [|done]. by rewrite Hs.
Qed.

Lemma init_opt_m_data (init_mem : bool) (m m' : machine) :
  (if init_mem then init else mret tt) m = Done tt m' -> m_data m' = m_data m.
Proof.
  intros Hi. destruct (init_opt_frame init_mem m) as [(Hp & _) _].
  by rewrite Hi in Hp.
Qed.

Lemma run_ctor_created (debug : bool) (c : ctor_call) (m m' : machine) :
  allocates_non_null A ->
  ctor_region_ok c = true ->
  run_ctor' debug c m = Done tt m' ->
  (m_data m' = 0 <-> ctor_creates c = false).
Proof.
  intros Hnn Hok Hrun. destruct c as [|mem sz vs|mem sz b|sz vs|sz b];
    cbn [ctor_creates ctor_region_ok] in *; cbv delta [run_ctor] in Hrun;
    cbv beta iota in Hrun.
  - injection Hrun as <-. done.
  - rewrite array_mem_vs_unfold in Hrun. apply set_mem_m_data in Hrun.
    apply Z.ltb_lt in Hok. split; [lia|done].
  - rewrite array_mem_init_unfold in Hrun. apply init_opt_m_data in Hrun.
    apply Z.ltb_lt in Hok. cbn [m_data] in Hrun. split; [lia|done].
  - rewrite array_alloc_vs_unfold in Hrun.
    apply set_alloc_m_data in Hrun as (mem & a' & Ha%Hnn & Hp).
    split; [lia|done].
  - rewrite array_alloc_init_unfold in Hrun.
    destruct (allocate_cases sz (fresh debug m))
      as [[_ Hal]|(mem & a' & Ha%Hnn & Hal)]; rewrite Hal in Hrun; [done|].
    apply init_opt_m_data in Hrun. cbn [m_data] in Hrun. split; [lia|done].
Qed.

Lemma run_member_created (debug CallDestructors : bool) (c : member_call T)
    (b : bool) (m m' : machine) :
  allocates_non_null A ->
  member_region_ok c = true ->
  (m_data m = 0 <-> b = false) ->
  run_member' debug CallDestructors c m = Done tt m' ->
  (m_data m' = 0 <-> member_creates b c = false).
Proof.
  intros Hnn Hok Hb Hrun. destruct c as [mem sz vs|sz vs| | | | |idx v];
    cbn [member_creates member_region_ok] in *;
    cbv delta [run_member] in Hrun; cbv beta iota in Hrun.
  - apply set_mem_m_data in Hrun. apply Z.ltb_lt in Hok. split; [lia|done].
  - apply set_alloc_m_data in Hrun as (mem & a' & Ha%Hnn & Hp). split; [lia|done].
  - apply finalize_nulls in Hrun. done.
  - revert Hrun. mstep.
    destruct (size_cases m) as [[n ->]| ->]; [|done]. by intros [= <-].
  - revert Hrun. unfold array.empty. mstep. by intros [= <-].
  - revert Hrun. mstep. pose proof (iterate_same m) as Hi.
    destruct (iterate m) as [l m1|]; [|done]. cbn [final] in Hi. subst m1.
    by intros [= <-].
  - revert Hrun. mstep. pose proof (operator_index_same debug idx m) as Hi.
    destruct (operator_index debug idx m) as [r m1|]; [|done].
    cbn [final] in Hi. subst m1. by intros [= <-].
Qed.

Lemma run_members_created (debug CallDestructors : bool)
    (cs : list (member_call T)) :
  forall (b : bool) (m m' : machine),
    allocates_non_null A ->
    forallb member_region_ok cs = true ->
    (m_data m = 0 <-> b = false) ->
    run_members' debug CallDestructors cs m = Done tt m' ->
    (m_data m' = 0 <-> fold_left member_creates cs b = false).
Proof.
  induction cs as [|c cs IH]; intros b m m' Hnn Hok Hb Hrun.
  - injection Hrun as <-. done.
  - cbn [forallb] in Hok. apply andb_true_iff in Hok as [Hc Hcs].
    simpl in Hrun. revert Hrun.
    unfold mbind at 1, array.M_bind at 1.
    destruct (run_member' debug CallDestructors c m) as [[] m1|] eqn:Hm; [|done].
    intros Hrun. cbn [fold_left].
    apply (IH (member_creates b c) m1 m'); [done..| |done].
    by apply (run_member_created debug CallDestructors c b m m1).
Qed.

Lemma empty_spec (m : machine) : empty m = Done (m_data m =? 0) m.
Proof. done. Qed.

(** C3.  Take any constructor call and any member calls after it, all of
    which returned, with real (non-null) regions.  Then [empty()] is true
    exactly when the handle was default-constructed or finalized and not
    created since; such a handle reads as a zero-length array: [size()] is 0
    and a traversal visits nothing.  A block created with [sz = 0], into a
    region or through the allocator, also has [size()] 0 and an empty
    traversal, but its [empty()] is false. *)
Theorem empty_iff_not_created (debug CallDestructors : bool) (c : ctor_call)
    (cs : list (member_call T)) (m m' : machine) :
  allocates_non_null A ->
  ctor_region_ok c = true ->
  forallb member_region_ok cs = true ->
  (run_ctor' debug c;; run_members' debug CallDestructors cs) m = Done tt m' ->
  empty m' = Done (negb (created c cs)) m' /\
  (created c cs = false -> size m' = Done 0 m' /\ iterate m' = Done [] m') /\
  (forall (m0 : machine) (mem vs : Z),
     m_data m0 = 0 ->
     0 < mem ->
     (exists m1 : machine,
        set_mem debug mem 0 vs m0 = Done tt m1 /\
        size m1 = Done 0 m1 /\ iterate m1 = Done [] m1 /\
        empty m1 = Done false m1) /\
     (forall a' : A,
        a_allocate (allocator m0) (space 0) = Some (mem, a') ->
        exists m1 : machine,
          set_alloc debug 0 vs m0 = Done tt m1 /\
          size m1 = Done 0 m1 /\ iterate m1 = Done [] m1 /\
          empty m1 = Done false m1)).
Proof.
  intros Hnn Hc Hcs. unfold mbind at 1, array.M_bind at 1.
  destruct (run_ctor' debug c m) as [[] m1|] eqn:Hctor; [|done]. intros Hrun.
  assert (m_data m' = 0 <-> created c cs = false) as Hiff.
  { apply (run_members_created debug CallDestructors cs _ m1 m'); [done..| |done].
    by apply (run_ctor_created debug c m m1). }
  split; [|split].
  - rewrite empty_spec. do 2 f_equal.
    destruct (Z.eqb_spec (m_data m') 0) as [E|E], (created c cs); try done.
    + by apply Hiff in E.
    + by destruct E; apply Hiff.
  - intros E%Hiff. split; [by apply size_empty | by apply iterate_empty].
  - intros m0 mem vs E Hm.
    assert (forall (a : A) (tr : list (event T)),
              let mz := Machine (mem + sizeof_size_t)
                          (<[mem := CSize 0]> (heap m0)) a tr in
              init_copy vs mz = Done tt mz /\
              size mz = Done 0 mz /\ iterate mz = Done [] mz /\
              empty mz = Done false mz) as Hzero.
    { intros a tr mz.
      assert (heap mz !! (m_data mz - sizeof_size_t) = Some (CSize 0)) as Hh.
      { cbn [mz m_data heap].
        replace (mem + sizeof_size_t - sizeof_size_t) with mem by lia.
        apply lookup_insert_eq. }
      assert (m_data mz <> 0) as Hp by (cbn [mz m_data]; lia).
      split; [|split; [|split]].
      - rewrite (init_copy_spec vs [] mz Hp Hh); cbn [length]; [|done|lia].
        simpl. by rewrite app_nil_r.
      - by apply size_backed.
      - by apply (iterate_block mz []).
      - rewrite empty_spec. by destruct (Z.eqb_spec (m_data mz) 0). }
    split.
    + eexists. rewrite set_mem_unfold, guard_ready by auto. apply Hzero.
    + intros a' Ha. eexists. rewrite set_alloc_unfold, guard_ready by auto.
      rewrite (allocate_spec _ _ _ _ Ha). apply Hzero.
Qed.


(** *** Teardown without element destructors *)

Lemma array_dtor_false (m : machine) : array_dtor false m = Done tt m.
Proof.
  unfold array.array_dtor. mstep. by rewrite andb_false_r.
Qed.

Lemma finalize_false (m : machine) :
  finalize false m = release_region sizeof_size_t m.
Proof.
  unfold array.finalize, release_region. mstep. case_eqb; [done|]. cbn [negb].
  unfold array.size, array.load_size, array.SIZE_IDX. mstep.
  destruct (Z.eqb_spec (m_data m) 0) as [|_]; [done|].
  replace (m_data m + -1 * sizeof_size_t) with (m_data m - sizeof_size_t) by lia.
  destruct (heap m !! (m_data m - sizeof_size_t)) as [[k|v]|]; try done.
  unfold array.raw_ptr, array.deallocate. mstep.
  by replace (m_data m - 1 * sizeof_size_t) with (m_data m - sizeof_size_t) by lia.
Qed.

Lemma release_region_trace (m : machine) :
  exists evs : list (event T),
    trace (final (release_region sizeof_size_t m)) = trace m ++ evs /\
    existsb is_destroy evs = false /\
    heap (final (release_region sizeof_size_t m)) = heap m.
Proof.
  unfold release_region. case_eqb.
  - exists []. by rewrite app_nil_r.
  - destruct (heap m !! (m_data m - sizeof_size_t)) as [[k|v]|];
      try (exists []; by rewrite app_nil_r).
    by eexists [_].
Qed.

(** [release_region] looks at the header and at nothing else in the heap. *)
Lemma release_region_heap (m : machine) (h' : gmap Z (cell T)) :
  h' !! (m_data m - sizeof_size_t) = heap m !! (m_data m - sizeof_size_t) ->
  release_region sizeof_size_t (Machine (m_data m) h' (allocator m) (trace m)) =
    match release_region sizeof_size_t m with
    | Done _ m' => Done tt (Machine (m_data m') h' (allocator m') (trace m'))
    | Raise e _ => Raise e (Machine (m_data m) h' (allocator m) (trace m))
    end.
Proof.
  intros Hh. unfold release_region. cbn [m_data heap allocator trace].
  rewrite Hh. case_eqb; [done|].
  by destruct (heap m !! (m_data m - sizeof_size_t)) as [[k|v]|].
Qed.

(** *** Default construction and blocks left uninitialised *)

Lemma init_fresh (mem : Z) (n : nat) (h : gmap Z (cell T)) (a : A)
    (tr : list (event T)) :
  0 < mem ->
  init (Machine (mem + sizeof_size_t) (<[mem := CSize (Z.of_nat n)]> h) a tr) =
    Done tt
      (Machine (mem + sizeof_size_t)
         (store_list (mem + sizeof_size_t) (replicate n T_default)
            (<[mem := CSize (Z.of_nat n)]> h))
         a (tr ++ construct_events (mem + sizeof_size_t) (replicate n T_default))).
Proof.
  intros Hm. rewrite (init_spec n); cbn [m_data heap allocator trace].
  - done.
  - lia.
  - replace (mem + sizeof_size_t - sizeof_size_t) with mem by lia.
    apply lookup_insert_eq.
Qed.

Lemma default_block (mem : Z) (n : nat) (h : gmap Z (cell T)) (a : A)
    (tr : list (event T)) :
  0 < mem ->
  block_at
    (Machine (mem + sizeof_size_t)
       (store_list (mem + sizeof_size_t) (replicate n T_default)
          (<[mem := CSize (Z.of_nat n)]> h)) a tr)
    (replicate n T_default).
Proof.
  intros Hm. pose proof (created_block mem (replicate n T_default) h a tr Hm) as Hb.
  by rewrite length_replicate in Hb.
Qed.

Lemma block_reads (m : machine) (l : list T) :
  block_at m l -> size m = Done (Z.of_nat (length l)) m /\ iterate m = Done l m.
Proof. intros Hb. split; [by apply size_block | by apply iterate_block]. Qed.

(** X1.  The two constructors that take [init_mem], called with [true] and a
    count [n] whose elements lie inside the address space, build a block of
    [n] default-constructed elements: they return, the [n]
    constructor calls are made first element first and are all they add to
    the trace (after the [allocate] call, for the allocator-backed one),
    [size()] is [n] and a traversal reads [n] copies of [T()]. *)
Theorem default_init_round_trip (debug : bool) (m : machine) (mem : Z) (n : nat) :
  0 < mem ->
  in_address_space (mem + sizeof_size_t) (Z.of_nat n) ->
  (exists m' : machine,
     array_mem_init debug mem (Z.of_nat n) true m = Done tt m' /\
     trace m' =
       trace m ++ construct_events (mem + sizeof_size_t) (replicate n T_default) /\
     size m' = Done (Z.of_nat n) m' /\
     iterate m' = Done (replicate n T_default) m') /\
  (forall a' : A,
     a_allocate (allocator m) (space (Z.of_nat n)) = Some (mem, a') ->
     exists m' : machine,
       array_alloc_init debug (Z.of_nat n) true m = Done tt m' /\
       trace m' =
         trace m ++ EvAllocate (space (Z.of_nat n)) mem
           :: construct_events (mem + sizeof_size_t) (replicate n T_default) /\
       size m' = Done (Z.of_nat n) m' /\
       iterate m' = Done (replicate n T_default) m').
Proof.
  intros Hm _. split.
  - eexists. rewrite array_mem_init_unfold, init_fresh by done.
    split; [done|]. split; [done|].
    destruct (block_reads _ _ (default_block mem n (heap m) (allocator m)
                (trace m ++ construct_events (mem + sizeof_size_t)
                              (replicate n T_default)) Hm)) as [Hs Hi].
    by rewrite length_replicate in Hs.
  - intros a' Ha. eexists. rewrite array_alloc_init_unfold.
    rewrite (allocate_spec _ mem a') by (by rewrite fresh_allocator).
    rewrite fresh_heap, fresh_trace, init_fresh by done.
    split; [done|]. cbn [trace]. split; [by rewrite <- app_assoc|].
    destruct (block_reads _ _ (default_block mem n (heap m) a'
                ((trace m ++ [EvAllocate (space (Z.of_nat n)) mem])
                   ++ construct_events (mem + sizeof_size_t)
                        (replicate n T_default)) Hm)) as [Hs Hi].
    by rewrite length_replicate in Hs.
Qed.

(** X2.  The constructor [array(mem, sz, false)] writes the header and nothing
    else: it returns, calls no constructor, leaves every cell outside the
    [sizeof(size_t)] bytes of the header as it was, and the handle is backed
    with [size()] equal to [sz].  The element count used at teardown is the
    header's: when the [sz] slots lie inside the address space, the
    destructor of such a block, with [CallDestructors], still calls [sz]
    element destructors, on slots in which nothing was constructed. *)
Theorem uninitialized_block (debug : bool) (m : machine) (mem : Z) (n : nat) :
  0 < mem ->
  in_address_space (mem + sizeof_size_t) (Z.of_nat n) ->
  exists m' : machine,
    array_mem_init debug mem (Z.of_nat n) false m = Done tt m' /\
    trace m' = trace m /\
    allocator m' = allocator m /\
    (forall q : Z,
       q < mem \/ mem + sizeof_size_t <= q -> heap m' !! q = heap m !! q) /\
    size m' = Done (Z.of_nat n) m' /\
    empty m' = Done false m' /\
    array_dtor true m' =
      Done tt
        (Machine (m_data m') (heap m') (allocator m')
           (trace m ++ (EvDestroy <$> elem_addrs n (mem + sizeof_size_t)))).
Proof.
  intros Hm _. eexists. rewrite array_mem_init_unfold. split; [done|].
  cbn [trace allocator heap m_data].
  assert (<[mem := CSize (Z.of_nat n)]> (heap m)
            !! (mem + sizeof_size_t - sizeof_size_t) = Some (CSize (Z.of_nat n)))
    as Hh.
  { replace (mem + sizeof_size_t - sizeof_size_t) with mem by lia.
    apply lookup_insert_eq. }
  split; [done|]. split; [done|]. split.
  { intros q Hq. apply lookup_insert_ne. lia. }
  split; [apply size_backed; cbn [m_data heap]; [lia|done]|].
  split.
  { rewrite empty_spec. cbn [m_data].
    by destruct (Z.eqb_spec (mem + sizeof_size_t) 0); [lia|]. }
  unfold array.array_dtor. mstep.
  destruct (Z.eqb_spec (mem + sizeof_size_t) 0); [lia|]. cbn [negb andb].
  rewrite (destroy_elements_spec n); cbn [m_data heap]; [done|lia|done].
Qed.

(** *** A whole life: create, then finalize *)

Lemma construct_events_zip (l : list T) :
  forall p : Z,
    construct_events p l = zip_with EvConstruct (elem_addrs (length l) p) l.
Proof. induction l as [|v l IH]; intros p; simpl; [done|]. by rewrite IH. Qed.

(** X3.  Creating a block from a source through the allocator and finalizing it
    with [CallDestructors] makes, in this order: one [allocate] of [space(n)]
    bytes; one constructor call per element, first element first; one
    destructor call per element at the same addresses in the same order; one
    [deallocate] of the count [n] and the address [allocate] returned.  The
    handle is empty again and the source is as it was. *)
Theorem construct_destroy_balance (debug : bool) (m : machine) (mem vs : Z)
    (l : list T) (a' : A) :
  0 < mem ->
  read_list (heap m) vs (length l) = Some l ->
  vs + Z.of_nat (length l) * sizeof_T <= mem \/
    mem + sizeof_size_t + Z.of_nat (length l) * sizeof_T <= vs ->
  m_data m = 0 ->
  a_allocate (allocator m) (space (Z.of_nat (length l))) = Some (mem, a') ->
  exists m' : machine,
    (set_alloc debug (Z.of_nat (length l)) vs;; finalize true) m = Done tt m' /\
    trace m' =
      trace m
        ++ [EvAllocate (space (Z.of_nat (length l))) mem]
        ++ zip_with EvConstruct (elem_addrs (length l) (mem + sizeof_size_t)) l
        ++ (EvDestroy <$> elem_addrs (length l) (mem + sizeof_size_t))
        ++ [EvDeallocate (Z.of_nat (length l)) mem] /\
    allocator m' = a_deallocate a' (Z.of_nat (length l)) mem /\
    m_data m' = 0 /\
    read_list (heap m') vs (length l) = Some l.
Proof.
  intros Hm Hr Hd E Ha. unfold mbind at 1, array.M_bind at 1.
  rewrite (set_alloc_spec debug mem vs l a') by auto.
  rewrite (finalize_spec _ _ (length l)); cbn [m_data heap allocator trace].
  - eexists. split; [done|]. cbn [trace allocator m_data heap].
    replace (mem + sizeof_size_t - sizeof_size_t) with mem by lia.
    split; [|split; [done|split; [done|]]].
    + rewrite construct_events_zip. by rewrite <- !app_assoc.
    + rewrite read_list_store_list_other by nia.
      rewrite read_list_insert by nia. done.
  - lia.
  - rewrite store_list_lookup by lia.
    replace (mem + sizeof_size_t - sizeof_size_t) with mem by lia.
    apply lookup_insert_eq.
Qed.

(** *** What creation writes *)

(** X4.  [set(mem, n, vs)] writes inside the region [mem .. mem +
    sizeof(size_t) + n * sizeof(T)) only: every cell below or beyond it is as
    it was, so the source still reads the same values, and the allocator is
    not involved. *)
Theorem set_mem_frame (debug : bool) (m : machine) (mem vs : Z) (l : list T) :
  0 < mem ->
  read_list (heap m) vs (length l) = Some l ->
  vs + Z.of_nat (length l) * sizeof_T <= mem \/
    mem + sizeof_size_t + Z.of_nat (length l) * sizeof_T <= vs ->
  m_data m = 0 \/ debug = false ->
  exists m' : machine,
    set_mem debug mem (Z.of_nat (length l)) vs m = Done tt m' /\
    (forall q : Z,
       q < mem \/ mem + sizeof_size_t + Z.of_nat (length l) * sizeof_T <= q ->
       heap m' !! q = heap m !! q) /\
    read_list (heap m') vs (length l) = Some l /\
    allocator m' = allocator m /\
    m_data m' = mem + sizeof_size_t.
Proof.
  intros Hm Hr Hd He. eexists. split; [by apply set_mem_spec|].
  cbn [heap allocator m_data]. split; [|split; [|done]].
  - intros q Hq. rewrite store_list_lookup by lia. apply lookup_insert_ne. lia.
  - rewrite read_list_store_list_other by nia.
    rewrite read_list_insert by nia. done.
Qed.

(** *** The extent of a block *)

Lemma space_fits (n : Z) :
  0 <= n ->
  n * sizeof_T + sizeof_size_t < 2 ^ (8 * sizeof_size_t) ->
  space n = n * sizeof_T + sizeof_size_t.
Proof.
  intros Hn Hfit. unfold array.space, array.wrap, array.size_t_modulus.
  rewrite Zplus_mod_idemp_l.
  replace (sizeof_T * n + sizeof_size_t) with (n * sizeof_T + sizeof_size_t) by lia.
  apply Z.mod_small. nia.
Qed.

(** X5.  On a backed handle whose header, [sizeof(size_t)] bytes below
    [m_data], counts [n] elements that lie inside the address space:
    [c_ptr()] and [begin()] are the same address, [raw_ptr()] is
    [sizeof(size_t)] bytes below it, [end()] is [n * sizeof(T)] bytes above
    it, and the bytes from [raw_ptr()] to [end()] are exactly [space(n)]. *)
Theorem block_extent (m : machine) (n : nat) :
  sizeof_size_t <= m_data m ->
  heap m !! (m_data m - sizeof_size_t) = Some (CSize (Z.of_nat n)) ->
  in_address_space (m_data m) (Z.of_nat n) ->
  exists b e r : Z,
    begin m = Done b m /\
    array.c_ptr m = Done b m /\
    end_ m = Done e m /\
    raw_ptr m = Done r m /\
    b - r = sizeof_size_t /\
    e - b = Z.of_nat n * sizeof_T /\
    e - r = space (Z.of_nat n).
Proof.
  intros Hlow Hh (_ & _ & Hfit). unfold array.size_t_modulus in Hfit.
  assert (m_data m <> 0) as Hp by lia.
  exists (m_data m), (m_data m + Z.of_nat n * sizeof_T), (m_data m - sizeof_size_t).
  split; [done|]. split; [done|]. split; [by apply end_backed|].
  split.
  { unfold array.raw_ptr. mstep. do 2 f_equal. lia. }
  split; [lia|]. split; [lia|].
  rewrite space_fits by lia. lia.
Qed.

(** *** [set] on a handle that is already backed, in a release build *)

(** X6.  In a release build [set] on a backed handle goes through: the handle
    now points at the new block, which holds the source values, and the only
    calls made are the constructions of the new elements.  The elements the
    handle pointed at before are not destroyed and their region is not
    handed to any allocator; when the new region does not overlap it, the
    old block is still in memory, header and elements.  The same call in a
    debug build stops at the assertion. *)
Theorem release_set_overwrites (m : machine) (old l : list T) (mem vs : Z) :
  block_at m old ->
  0 < mem ->
  read_list (heap m) vs (length l) = Some l ->
  vs + Z.of_nat (length l) * sizeof_T <= mem \/
    mem + sizeof_size_t + Z.of_nat (length l) * sizeof_T <= vs ->
  mem + sizeof_size_t + Z.of_nat (length l) * sizeof_T
    <= m_data m - sizeof_size_t \/
    m_data m + Z.of_nat (length old) * sizeof_T <= mem ->
  exists m' : machine,
    set_mem false mem (Z.of_nat (length l)) vs m = Done tt m' /\
    block_at m' l /\
    trace m' = trace m ++ construct_events (mem + sizeof_size_t) l /\
    allocator m' = allocator m /\
    heap m' !! (m_data m - sizeof_size_t)
      = Some (CSize (Z.of_nat (length old))) /\
    read_list (heap m') (m_data m) (length old) = Some old /\
    set_mem true mem (Z.of_nat (length l)) vs m = Raise AssertionViolation m.
Proof.
  intros (Hp & Hh & Ho) Hm Hr Hd Hn. eexists.
  split; [apply set_mem_spec; auto|].
  split; [by apply created_block|].
  cbn [trace allocator heap]. split; [done|]. split; [done|].
  split; [|split].
  - rewrite store_list_lookup by lia. rewrite lookup_insert_ne by lia. done.
  - rewrite read_list_store_list_other by nia.
    rewrite read_list_insert by nia. done.
  - by apply set_mem_trapped.
Qed.

(** *** After [finalize] *)

Lemma finalize_heap (CallDestructors : bool) (m m' : machine) :
  finalize CallDestructors m = Done tt m' -> heap m' = heap m.
Proof.
  unfold array.finalize. mstep. case_eqb; cbn [negb].
  - by intros [= <-].
  - destruct CallDestructors.
    + pose proof (destroy_elements_frame m) as (_ & _ & Hh).
      destruct (destroy_elements m) as [[] m1|]; [|done]. cbn [final] in Hh.
      destruct (size_cases m1) as [[k ->]| ->]; [|done].
      unfold array.raw_ptr, array.deallocate. mstep. by intros [= <-].
    + mstep. destruct (size_cases m) as [[k ->]| ->]; [|done].
      unfold array.raw_ptr, array.deallocate. mstep. by intros [= <-].
Qed.

(** X7.  A handle that was finalized can be created into again, in a debug
    build too: after any [finalize] that returned, both [set] overloads pass
    their assertion and round-trip a source as on a fresh handle. *)
Theorem reuse_after_finalize (debug CallDestructors : bool) (m m1 : machine)
    (mem vs : Z) (l : list T) :
  finalize CallDestructors m = Done tt m1 ->
  0 < mem ->
  read_list (heap m) vs (length l) = Some l ->
  vs + Z.of_nat (length l) * sizeof_T <= mem \/
    mem + sizeof_size_t + Z.of_nat (length l) * sizeof_T <= vs ->
  round_trips l (set_mem debug mem (Z.of_nat (length l)) vs m1) /\
  (forall a' : A,
     a_allocate (allocator m1) (space (Z.of_nat (length l))) = Some (mem, a') ->
     round_trips l (set_alloc debug (Z.of_nat (length l)) vs m1)).
Proof.
  intros Hf Hm Hr Hd.
  pose proof (finalize_nulls _ _ _ Hf) as E.
  rewrite <- (finalize_heap _ _ _ Hf) in Hr. split.
  - rewrite set_mem_spec by auto. by apply round_trips_created.
  - intros a' Ha. rewrite (set_alloc_spec debug mem vs l a') by auto.
    by apply round_trips_created.
Qed.

Lemma array_dtor_empty (CallDestructors : bool) (m : machine) :
  m_data m = 0 -> array_dtor CallDestructors m = Done tt m.
Proof. intros E. unfold array.array_dtor. mstep. by rewrite E. Qed.

(** X8.  The destructor that runs after [finalize] adds nothing: whatever
    [finalize] did -- returned or failed -- [finalize] followed by [~array()]
    ends in the same outcome as [finalize] alone, so no element is destroyed
    a second time. *)
Theorem finalize_then_dtor (CallDestructors : bool) (m : machine) :
  (finalize CallDestructors;; array_dtor CallDestructors) m
    = finalize CallDestructors m.
Proof.
  unfold mbind at 1, array.M_bind at 1.
  destruct (finalize CallDestructors m) as [[] m1|e m1] eqn:Hf; [|done].
  apply array_dtor_empty. by apply finalize_nulls in Hf.
Qed.

(** *** The bytes asked of the allocator *)



(** *** Traversal and indexing *)

Lemma iterate_loop_inv (fuel : nat) :
  forall (it e : Z) (m m' : machine) (l : list T),
    iterate_loop fuel it e m = Done l m' ->
    m' = m /\
    e = it + Z.of_nat (length l) * sizeof_T /\
    read_list (heap m) it (length l) = Some l.
Proof.
  induction fuel as [|fuel IH]; intros it e m m' l; simpl; case_eqb;
    try (intros [= <- <-]; repeat split; simpl; lia); try done.
  unfold array.load_T. mstep. destruct (heap m !! it) as [[|v]|] eqn:Hv; try done.
  destruct (iterate_loop fuel (it + sizeof_T) e m) as [l1 m1|] eqn:Hl; [|done].
  intros [= <- <-]. apply IH in Hl as (-> & He & Hr).
  split; [done|]. split; [simpl; lia|]. by apply read_list_cons.
Qed.

(** X10.  Traversal and indexing agree, however the block came to be: on a
    handle whose [size()] elements lie inside the address space, when a
    traversal from [begin()] to [end()] returns the values [l], it has
    changed nothing, [size()] is the length of [l], and [operator[]] at every
    position [i] below it yields a reference that reads [l[i]]. *)
Theorem traversal_agrees_with_indexing (debug : bool) (m m' : machine)
    (l : list T) (n : Z) :
  iterate m = Done l m' ->
  size m = Done n m ->
  in_address_space (m_data m) n ->
  m' = m /\
  n = Z.of_nat (length l) /\
  (forall (i : nat) (v : T),
     l !! i = Some v ->
     operator_index debug (Z.of_nat i) m
       = Done (m_data m + Z.of_nat i * sizeof_T) m /\
     load_T (m_data m + Z.of_nat i * sizeof_T) m = Done v m).
Proof.
  intros Hit Hs _. revert Hit.
  unfold array.iterate, array.begin, array.end_. mstep. rewrite Hs. mstep.
  intros (-> & He & Hr)%iterate_loop_inv.
  assert (n = Z.of_nat (length l)) as -> by nia.
  split; [done|]. split; [done|]. intros i v Hi.
  pose proof (lookup_lt_Some _ _ _ Hi) as Hlt. split.
  - rewrite (operator_index_spec _ _ _ _ Hs).
    destruct (Z.ltb_spec (Z.of_nat i) (Z.of_nat (length l))); [|lia].
    by rewrite andb_false_r.
  - unfold array.load_T. by rewrite (read_list_lookup _ l _ i v Hr Hi).
Qed.

End properties.

(** ** The derived classes *)
Section derived.

Context {T A : Type} `{Allocator A}.

Variable sizeof_T : Z.
Variable sizeof_ptr : Z.
Variable sizeof_size_t : Z.
Variable T_default : T.
Variable debug : bool.

(** C10.  [sarray<T>] and [ptr_array<T>] add nothing to [array<T, false>] and
    [array<T*, false>]: each of their constructors is the base's constructor
    of the same arguments, their destructor and their [finalize] are the
    base's with [CallDestructors = false].  So their destructor does nothing
    at all, and their [finalize] is [release_region]: it calls no element
    destructor, leaves the heap as it is, and reads no cell but the header --
    the stored pointers of a [ptr_array] are never followed. *)
Theorem derived_classes_add_nothing :
  (sarray.sarray_default = array.array_default (T:=T) (A:=A) /\
   sarray.sarray_mem_vs (T:=T) (A:=A) sizeof_T sizeof_size_t debug
     = array.array_mem_vs sizeof_T sizeof_size_t debug /\
   sarray.sarray_alloc_vs (T:=T) (A:=A) sizeof_T sizeof_size_t debug
     = array.array_alloc_vs sizeof_T sizeof_size_t debug /\
   sarray.sarray_mem_init (T:=T) (A:=A) sizeof_T sizeof_size_t T_default debug
     = array.array_mem_init sizeof_T sizeof_size_t T_default debug /\
   sarray.sarray_alloc_init (T:=T) (A:=A) sizeof_T sizeof_size_t T_default debug
     = array.array_alloc_init sizeof_T sizeof_size_t T_default debug /\
   sarray.sarray_dtor (T:=T) (A:=A) sizeof_T sizeof_size_t
     = array.array_dtor sizeof_T sizeof_size_t false /\
   sarray.finalize (T:=T) (A:=A) sizeof_T sizeof_size_t
     = array.finalize sizeof_T sizeof_size_t false) /\
  (ptr_array.ptr_array_default = array.array_default (T:=Z) (A:=A) /\
   ptr_array.ptr_array_mem_vs (A:=A) sizeof_ptr sizeof_size_t debug
     = array.array_mem_vs sizeof_ptr sizeof_size_t debug /\
   ptr_array.ptr_array_alloc_vs (A:=A) sizeof_ptr sizeof_size_t debug
     = array.array_alloc_vs sizeof_ptr sizeof_size_t debug /\
   ptr_array.ptr_array_mem_init (A:=A) sizeof_ptr sizeof_size_t debug
     = array.array_mem_init sizeof_ptr sizeof_size_t 0 debug /\
   ptr_array.ptr_array_alloc_init (A:=A) sizeof_ptr sizeof_size_t debug
     = array.array_alloc_init sizeof_ptr sizeof_size_t 0 debug /\
   ptr_array.ptr_array_dtor (A:=A) sizeof_ptr sizeof_size_t
     = array.array_dtor sizeof_ptr sizeof_size_t false /\
   ptr_array.finalize (A:=A) sizeof_ptr sizeof_size_t
     = array.finalize sizeof_ptr sizeof_size_t false) /\
  (forall m : machine T A,
     sarray.sarray_dtor sizeof_T sizeof_size_t m = Done tt m /\
     sarray.finalize sizeof_T sizeof_size_t m = release_region sizeof_size_t m /\
     exists evs : list (event T),
       trace (final (sarray.finalize sizeof_T sizeof_size_t m)) = trace m ++ evs /\
       existsb is_destroy evs = false /\
       heap (final (sarray.finalize sizeof_T sizeof_size_t m)) = heap m) /\
  (forall m : machine Z A,
     ptr_array.ptr_array_dtor sizeof_ptr sizeof_size_t m = Done tt m /\
     ptr_array.finalize sizeof_ptr sizeof_size_t m = release_region sizeof_size_t m /\
     (exists evs : list (event Z),
        trace (final (ptr_array.finalize sizeof_ptr sizeof_size_t m))
          = trace m ++ evs /\
        existsb is_destroy evs = false /\
        heap (final (ptr_array.finalize sizeof_ptr sizeof_size_t m)) = heap m) /\
     forall h' : gmap Z (cell Z),
       h' !! (m_data m - sizeof_size_t) = heap m !! (m_data m - sizeof_size_t) ->
       ptr_array.finalize sizeof_ptr sizeof_size_t
         (Machine (m_data m) h' (allocator m) (trace m)) =
         match ptr_array.finalize sizeof_ptr sizeof_size_t m with
         | Done _ m' => Done tt (Machine (m_data m') h' (allocator m') (trace m'))
         | Raise e _ => Raise e (Machine (m_data m) h' (allocator m) (trace m))
         end).
Proof.
  split; [by repeat split|]. split; [by repeat split|]. split.
  - intros m. unfold sarray.sarray_dtor, sarray.finalize.
    rewrite array_dtor_false, finalize_false.
    split; [done|]. split; [done|]. apply release_region_trace.
  - intros m. unfold ptr_array.ptr_array_dtor, ptr_array.finalize.
    rewrite array_dtor_false, !finalize_false.
    split; [done|]. split; [done|]. split; [apply release_region_trace|].
    intros h' Hh. rewrite finalize_false. by apply release_region_heap.
Qed.

End derived.

(** ** The class at work: ints of 4 bytes, a [size_t] of 8 bytes *)

Example set_alloc_example :
  array.set_alloc 4 8 true 3 100 example_machine = Done tt example_block.
Proof. vm_compute. reflexivity. Qed.

Example iterate_example :
  array.iterate 4 8 example_block = Done [7; 8; 9] example_block.
Proof. vm_compute. reflexivity. Qed.

Example finalize_example :
  array.finalize 4 8 true example_block =
    Done tt
      (Machine 0 (heap example_block) (Bump 1020 1064 [(3, 1000)])
         (trace example_block ++
            [EvDestroy 1008; EvDestroy 1012; EvDestroy 1016; EvDeallocate 3 1000])).
Proof. vm_compute. reflexivity. Qed.

Example set_twice_example :
  array.set_mem 4 8 true 2000 3 100 example_block
    = Raise AssertionViolation example_block.
Proof. vm_compute. reflexivity. Qed.

Example set_alloc_full_example :
  array.set_alloc 4 8 true 3 100 example_machine_full
    = Raise AllocationFailure example_machine_full.
Proof. vm_compute. reflexivity. Qed.

Example index_out_of_range_example :
  array.operator_index 4 8 true 3 example_block
    = Raise AssertionViolation example_block.
Proof. vm_compute. reflexivity. Qed.

Lemma bump_non_null : allocates_non_null bump.
Proof.
  intros a a' n p. cbn [a_allocate bump_allocator].
  destruct (Z.ltb_spec 0 (next_free a)); cbn [andb]; [|done].
  destruct (next_free a + n <=? limit a); [|done].
  by intros [= <- _].
Qed.

Lemma example_block_holds : block_at 4 8 example_block [7; 8; 9].
Proof. by repeat split. Qed.

Lemma copy_round_trip_witness :
  round_trips 4 8 [7; 8; 9] (array.set_mem 4 8 true 1000 3 100 example_machine) /\
  round_trips 4 8 [7; 8; 9] (array.array_alloc_vs 4 8 true 3 100 example_machine).
Proof.
  destruct (copy_round_trip 4 8 eq_refl eq_refl true example_machine 1000 100
              [7; 8; 9]) as (Hset & _ & Halloc).
  - reflexivity.
  - vm_compute. reflexivity.
  - left. vm_compute. discriminate.
  - split; [apply Hset; reflexivity|].
    apply (Halloc (Bump 1020 1064 [])). reflexivity.
Defined.

Lemma finalize_backed_witness :
  exists m' : machine Z bump,
    array.finalize 4 8 true example_block = Done tt m' /\
    trace m' =
      trace example_block ++
        [EvDestroy 1008; EvDestroy 1012; EvDestroy 1016; EvDeallocate 3 1000] /\
    array.empty m' = Done true m'.
Proof.
  destruct (finalize_backed 4 8 eq_refl true example_block 3)
    as (m' & ds & Hf & _ & _ & -> & Ht & _ & _ & _ & _ & He & _).
  - vm_compute. discriminate.
  - vm_compute. reflexivity.
  - repeat split; vm_compute; (reflexivity || discriminate).
  - exists m'. split; [exact Hf|]. split; [exact Ht | exact He].
Defined.

Lemma empty_iff_not_created_witness :
  exists m' : machine Z bump,
    (run_ctor 4 8 0 true NewDefault;;
     run_members 4 8 true true [CallSetAlloc 3 100; CallSize; CallFinalize])
      example_machine = Done tt m' /\
    array.empty m' = Done true m'.
Proof.
  destruct ((run_ctor 4 8 0 true NewDefault;;
             run_members 4 8 true true [CallSetAlloc 3 100; CallSize; CallFinalize])
              example_machine) as [[] m'|e m'] eqn:E.
  - exists m'. split; [reflexivity|].
    exact (proj1 (empty_iff_not_created 4 8 0 eq_refl eq_refl true true
                    NewDefault [CallSetAlloc 3 100; CallSize; CallFinalize]
                    example_machine m' bump_non_null eq_refl eq_refl E)).
  - vm_compute in E. discriminate E.
Defined.

Lemma space_spec_witness : array.space 4 8 3 = 20.
Proof.
  apply (space_spec 4 8 eq_refl eq_refl 3); [discriminate | reflexivity].
Defined.

Lemma index_access_witness :
  (array.operator_index 4 8 true 1 example_block = Done 1012 example_block /\
   array.load_T 1012 example_block = Done 8 example_block) /\
  array.operator_index 4 8 true 3 example_block
    = Raise AssertionViolation example_block.
Proof.
  destruct (index_access 4 8 eq_refl eq_refl true example_block)
    as (Hin & Hout & _).
  destruct (Hin [7; 8; 9] example_block_holds) as [Hread _].
  split; [exact (Hread 1%nat 8 eq_refl)|].
  apply (Hout 3 3); [vm_compute; reflexivity | discriminate].
Defined.

Lemma array_dtor_frame_witness :
  array.array_dtor 4 8 true example_block =
    Done tt
      (Machine 1008 (heap example_block) (Bump 1020 1064 [])
         (trace example_block ++ [EvDestroy 1008; EvDestroy 1012; EvDestroy 1016])).
Proof.
  destruct (array_dtor_frame 4 8 eq_refl true example_block 3)
    as (teardown & -> & Hd & _).
  - intros _. repeat split; vm_compute; (reflexivity || discriminate).
  - exact Hd.
Defined.

Lemma create_twice_trapped_witness :
  array.set_mem 4 8 true 2000 3 100 example_block
    = Raise AssertionViolation example_block /\
  array.set_alloc 4 8 true 3 100 example_block
    = Raise AssertionViolation example_block.
Proof.
  destruct (create_twice_trapped 4 8 0 eq_refl example_block 2000 3 100)
    as [Htwice _].
  apply Htwice. vm_compute. discriminate.
Defined.

(** A debug build, and a handle that is backed: the constructor goes through
    without any check and points the handle at the new header. *)
Lemma constructor_not_checked :
  m_data example_block <> 0 /\
  array.array_mem_init 4 8 0 true 2000 3 false example_block =
    Done tt
      (Machine 2008 (<[2000 := CSize 3]> (heap example_block))
         (allocator example_block) (trace example_block)).
Proof. split; vm_compute; [discriminate | reflexivity]. Qed.

(** With a [size_t] of 8 bytes and elements of 8 bytes, [space(2^61)] is 8:
    the product [8 * 2^61] wraps to 0.  The byte count of such a block would
    be [2^64 + 8]. *)
Lemma space_wraps :
  array.space 8 8 (2 ^ 61) = 8 /\
  array.space 8 8 (2 ^ 61) <> 2 ^ 61 * 8 + 8.
Proof. split; vm_compute; [reflexivity | discriminate]. Qed.

(** ** More of the class at work *)

Lemma default_init_round_trip_witness :
  exists m' : machine Z bump,
    array.array_alloc_init 4 8 0 true 3 true example_machine = Done tt m' /\
    array.size 8 m' = Done 3 m' /\
    array.iterate 4 8 m' = Done [0; 0; 0] m'.
Proof.
  destruct (default_init_round_trip 4 8 0 eq_refl eq_refl true example_machine
              1000 3 eq_refl) as [_ Halloc].
  { repeat split; vm_compute; (reflexivity || discriminate). }
  destruct (Halloc (Bump 1020 1064 []) eq_refl) as (m' & Hc & _ & Hs & Hi).
  exists m'. split; [exact Hc|]. split; [exact Hs | exact Hi].
Defined.

Lemma uninitialized_block_witness :
  exists m' : machine Z bump,
    array.array_mem_init 4 8 0 true 2000 3 false example_machine = Done tt m' /\
    trace m' = [] /\
    array.size 8 m' = Done 3 m' /\
    trace (final (array.array_dtor 4 8 true m'))
      = [EvDestroy 2008; EvDestroy 2012; EvDestroy 2016].
Proof.
  destruct (uninitialized_block 4 8 0 eq_refl eq_refl true example_machine 2000 3
              eq_refl) as (m' & Hc & Ht & _ & _ & Hs & _ & Hd).
  { repeat split; vm_compute; (reflexivity || discriminate). }
  exists m'. split; [exact Hc|]. split; [exact Ht|]. split; [exact Hs|].
  rewrite Hd. reflexivity.
Defined.

Lemma construct_destroy_balance_witness :
  exists m' : machine Z bump,
    (array.set_alloc 4 8 true 3 100;; array.finalize 4 8 true) example_machine
      = Done tt m' /\
    trace m' =
      [EvAllocate 20 1000;
       EvConstruct 1008 7; EvConstruct 1012 8; EvConstruct 1016 9;
       EvDestroy 1008; EvDestroy 1012; EvDestroy 1016;
       EvDeallocate 3 1000].
Proof.
  destruct (construct_destroy_balance 4 8 eq_refl eq_refl true example_machine
              1000 100 [7; 8; 9] (Bump 1020 1064 []))
    as (m' & Hc & Ht & _).
  - reflexivity.
  - vm_compute. reflexivity.
  - left. vm_compute. discriminate.
  - reflexivity.
  - reflexivity.
  - exists m'. split; [exact Hc | exact Ht].
Defined.

Lemma set_mem_frame_witness :
  exists m' : machine Z bump,
    array.set_mem 4 8 true 1000 3 100 example_machine = Done tt m' /\
    heap m' !! 104 = Some (CElem 8) /\
    heap m' !! 1020 = None.
Proof.
  destruct (set_mem_frame 4 8 eq_refl eq_refl true example_machine 1000 100
              [7; 8; 9]) as (m' & Hc & Hq & _).
  - reflexivity.
  - vm_compute. reflexivity.
  - left. vm_compute. discriminate.
  - left. reflexivity.
  - exists m'. split; [exact Hc|]. split.
    + rewrite Hq; [reflexivity|]. left. reflexivity.
    + rewrite Hq; [reflexivity|]. right. vm_compute. discriminate.
Defined.

Lemma block_extent_witness :
  array.raw_ptr 8 example_block = Done 1000 example_block /\
  array.end_ 4 8 example_block = Done 1020 example_block /\
  array.space 4 8 3 = 1020 - 1000.
Proof.
  destruct (block_extent 4 8 eq_refl eq_refl example_block 3)
    as (b & e & r & Hb & _ & He & Hr & _ & _ & Hsp).
  - vm_compute. discriminate.
  - vm_compute. reflexivity.
  - repeat split; vm_compute; (reflexivity || discriminate).
  - assert (e = 1020) as -> by (vm_compute in He; congruence).
    assert (r = 1000) as -> by (vm_compute in Hr; congruence).
    split; [exact Hr|]. split; [exact He|]. symmetry. exact Hsp.
Defined.

Lemma release_set_overwrites_witness :
  exists m' : machine Z bump,
    array.set_mem 4 8 false 2000 3 100 example_block = Done tt m' /\
    m_data m' = 2008 /\
    read_list 4 (heap m') 1008 3 = Some [7; 8; 9] /\
    array.set_mem 4 8 true 2000 3 100 example_block
      = Raise AssertionViolation example_block.
Proof.
  destruct (release_set_overwrites 4 8 eq_refl eq_refl example_block
              [7; 8; 9] [7; 8; 9] 2000 100 example_block_holds)
    as (m' & Hc & _ & _ & _ & _ & Hold & Hdbg).
  - reflexivity.
  - vm_compute. reflexivity.
  - left. vm_compute. discriminate.
  - right. vm_compute. discriminate.
  - exists m'. split; [exact Hc|]. split; [|split; [exact Hold | exact Hdbg]].
    vm_compute in Hc. injection Hc as <-. reflexivity.
Defined.

Lemma reuse_after_finalize_witness :
  round_trips 4 8 [7; 8; 9]
    (array.set_mem 4 8 true 2000 3 100
       (Machine 0 (heap example_block) (Bump 1020 1064 [(3, 1000)])
          (trace example_block ++
             [EvDestroy 1008; EvDestroy 1012; EvDestroy 1016;
              EvDeallocate 3 1000]))).
Proof.
  apply (reuse_after_finalize 4 8 eq_refl eq_refl true true example_block).
  - vm_compute. reflexivity.
  - reflexivity.
  - vm_compute. reflexivity.
  - left. vm_compute. discriminate.
Defined.


Lemma traversal_agrees_with_indexing_witness :
  array.iterate 4 8 example_block = Done [7; 8; 9] example_block /\
  array.load_T 1016 example_block = Done 9 example_block.
Proof.
  destruct (traversal_agrees_with_indexing 4 8 eq_refl true example_block
              example_block [7; 8; 9] 3) as (_ & _ & Hidx).
  - vm_compute. reflexivity.
  - vm_compute. reflexivity.
  - repeat split; vm_compute; (reflexivity || discriminate).
  - split; [vm_compute; reflexivity|]. exact (proj2 (Hidx 2%nat 9 eq_refl)).
Defined.
